(** * Natural-source EM simulation: sensitivities and factorization cache

    A shallow embedding of [SimPEG/electromagnetics/natural_source/simulation.py]:
    the base class [BaseNSEMSimulation] ([getJtJdiag], [Jvec], [Jtvec]) and its
    two formulations [Simulation1DPrimarySecondary] and
    [Simulation3DPrimarySecondary] ([getA], [getADeriv], [getRHS],
    [getRHSDeriv], [fields]).

    Numbers are IEEE binary64 values (Rocq's primitive floats), complex numbers
    are pairs of them with numpy's componentwise formulas, arrays carry their
    shape and every shape-sensitive operation returns an exception on a
    mismatch.  The mutable part of the simulation object ([self.model],
    [self.Ainv]) is threaded explicitly, together with a log of the calls made
    to the linear-solve backend (factorizations and releases). *)

From Stdlib Require Import ZArith List Bool Lia Floats.
From stdpp Require Import base list gmap strings.

Set Default Proof Using "Type".

(** ** Exceptions and the two effect layers *)

Inductive exn : Type :=
  | IndexError
  | KeyError
  | TypeError
  | ValueError
  | ZeroDivisionError
  | AttributeError
  | Exception (msg : string)
  | BackendError (msg : string).

Inductive result (A : Type) : Type :=
  | Ok (a : A)
  | Raise (e : exn).
Arguments Ok {A} a.
Arguments Raise {A} e.

Definition rbind {A B} (r : result A) (k : A -> result B) : result B :=
  match r with
  | Ok a => k a
  | Raise e => Raise e
  end.

Notation "'let+' x ':=' e 'in' k" := (rbind e (fun x => k))
  (at level 10, x pattern, e at level 100, k at level 200).

Definition is_ok {A} (r : result A) : bool :=
  match r with Ok _ => true | Raise _ => false end.

(** Python indexing [l[i]] with a non-negative index. *)
Definition index {A} (l : list A) (i : nat) : result A :=
  match l !! i with
  | Some a => Ok a
  | None => Raise IndexError
  end.

(** ** Complex doubles *)

Module Cplx.
Local Open Scope float_scope.

Record complex : Type := Cx { re : float; im : float }.

Definition c0 : complex := Cx 0 0.
(** The Python literal [1j]. *)
Definition j1 : complex := Cx 0 1.
Definition of_real (x : float) : complex := Cx x 0.

Definition cadd (a b : complex) : complex :=
  Cx (re a + re b) (im a + im b).
Definition cneg (a : complex) : complex :=
  Cx (- re a) (- im a).
Definition cmul (a b : complex) : complex :=
  Cx (re a * re b - im a * im b) (re a * im b + im a * re b).
Definition conj (a : complex) : complex :=
  Cx (re a) (- im a).
(** Quotient of two complex doubles (textbook formula); only the sample
    backend below divides. *)
Definition cdiv (a b : complex) : complex :=
  let d := re b * re b + im b * im b in
  Cx ((re a * re b + im a * im b) / d) ((im a * re b - re a * im b) / d).

(** Modelled from the spec: [omega] of [..utils], which is not part of the
    sources at hand: the angular frequency 2*pi*f, evaluated left to right
    in doubles with numpy's value of pi. *)
Definition pi : float := 0x1.921fb54442d18p+1.
Definition omega (freq : float) : float := 2 * pi * freq.

(** [1j * omega(freq)] and [-1j * omega(freq)]: the float is promoted to a
    complex number with zero imaginary part. *)
Definition iw (freq : float) : complex := cmul j1 (of_real (omega freq)).
Definition miw (freq : float) : complex := cmul (cneg j1) (of_real (omega freq)).
End Cplx.
Export Cplx.

(** ** Arrays

    A one-dimensional array is a list; a two-dimensional array is stored by
    columns (so that [mkvc], which flattens in Fortran order, is a
    concatenation) with its number of rows kept apart, which distinguishes the
    shapes (n, 0).  Sparse matrices use the same representation. *)

Definition cvec : Type := list complex.

Record matrix : Type := Mat { nrows : nat; cols : list cvec }.

Definition ncols (A : matrix) : nat := length (cols A).

Inductive ndarray : Type :=
  | Arr1 (v : cvec)
  | Arr2 (A : matrix).


(** [np.zeros((r, c), dtype=complex)] *)
Definition zeros (r c : nat) : matrix := Mat r (replicate c (replicate r c0)).

Fixpoint vadd (x y : cvec) : result cvec :=
  match x, y with
  | [], [] => Ok []
  | a :: x', b :: y' => let+ r := vadd x' y' in Ok (cadd a b :: r)
  | _, _ => Raise ValueError
  end.

Fixpoint cols_add (X Y : list cvec) : result (list cvec) :=
  match X, Y with
  | [], [] => Ok []
  | x :: X', y :: Y' =>
      let+ c := vadd x y in
      let+ R := cols_add X' Y' in
      Ok (c :: R)
  | _, _ => Raise ValueError
  end.

Definition madd (A B : matrix) : result matrix :=
  if negb (nrows A =? nrows B)%nat then Raise ValueError
  else let+ C := cols_add (cols A) (cols B) in Ok (Mat (nrows A) C).

(** Elementwise sum of two arrays of one shape.  numpy also adds arrays of
    unequal shapes when one can be stretched along the other; the simulation
    builds its sums from arrays of one shape, and unequal shapes are an error
    here. *)
Definition nd_add (a b : ndarray) : result ndarray :=
  match a, b with
  | Arr1 x, Arr1 y => let+ r := vadd x y in Ok (Arr1 r)
  | Arr2 A, Arr2 B => let+ C := madd A B in Ok (Arr2 C)
  | _, _ => Raise ValueError
  end.

Definition vscale (c : complex) (x : cvec) : cvec := map (cmul c) x.
Definition mscale (c : complex) (A : matrix) : matrix :=
  Mat (nrows A) (map (vscale c) (cols A)).
Definition nd_scale (c : complex) (a : ndarray) : ndarray :=
  match a with
  | Arr1 x => Arr1 (vscale c x)
  | Arr2 A => Arr2 (mscale c A)
  end.

Definition vneg (x : cvec) : cvec := map cneg x.
Definition nd_neg (a : ndarray) : ndarray :=
  match a with
  | Arr1 x => Arr1 (vneg x)
  | Arr2 A => Arr2 (Mat (nrows A) (map vneg (cols A)))
  end.

(** [mkvc(x)]: flatten in column-major order; [mkvc(x, 2)]: a column. *)
Definition mkvc (a : ndarray) : cvec :=
  match a with
  | Arr1 x => x
  | Arr2 A => concat (cols A)
  end.
Definition mkvc2 (x : cvec) : matrix := Mat (length x) [x].

(** [np.hstack((a, b))] of two two-dimensional arrays. *)
Definition hstack (A B : matrix) : result matrix :=
  if negb (nrows A =? nrows B)%nat then Raise ValueError
  else Ok (Mat (nrows A) (cols A ++ cols B)).

(** [X[:, j]] *)
Definition column (a : ndarray) (j : nat) : result cvec :=
  match a with
  | Arr1 _ => Raise IndexError
  | Arr2 A => index (cols A) j
  end.

(** Matrix-vector and matrix-matrix products ([*] on scipy sparse matrices):
    row [i] of [A * x] is [((0 + A_i0*x_0) + A_i1*x_1) + ...]. *)
Definition vscale_r (a : complex) (c : cvec) : cvec := map (fun e => cmul e a) c.

Fixpoint matvec_from (acc : cvec) (cs : list cvec) (x : cvec) : result cvec :=
  match cs, x with
  | [], [] => Ok acc
  | c :: cs', a :: x' =>
      let+ acc' := vadd acc (vscale_r a c) in
      matvec_from acc' cs' x'
  | _, _ => Raise ValueError
  end.

Definition matvec (A : matrix) (x : cvec) : result cvec :=
  matvec_from (replicate (nrows A) c0) (cols A) x.

Fixpoint matmul_cols (A : matrix) (Bs : list cvec) : result (list cvec) :=
  match Bs with
  | [] => Ok []
  | b :: Bs' =>
      let+ c := matvec A b in
      let+ R := matmul_cols A Bs' in
      Ok (c :: R)
  end.

Definition matmul (A B : matrix) : result matrix :=
  if negb (ncols A =? nrows B)%nat then Raise ValueError
  else let+ C := matmul_cols A (cols B) in Ok (Mat (nrows A) C).

(** [A.T]: row [i] of [A] becomes column [i]. *)
Definition row (A : matrix) (i : nat) : cvec :=
  map (fun c => nth i c c0) (cols A).
Definition transpose (A : matrix) : matrix :=
  Mat (ncols A) (map (row A) (seq 0 (nrows A))).
(** Conjugate transpose, used only to state what an adjoint would be. *)
Definition ctranspose (A : matrix) : matrix :=
  Mat (ncols A) (map (fun i => map conj (row A i)) (seq 0 (nrows A))).

(** Real views of complex data. *)
Definition real_part (x : cvec) : list float := map re x.
Definition upcast (x : list float) : cvec := map of_real x.

(** The sum of two real vectors as numpy forms it when the blocks of two
    dask arrays are added: entry by entry for vectors of one length, a vector
    of length one being stretched along the other; any other pair of lengths
    is a [ValueError].  The shapes declared to dask are not checked. *)
Definition radd (x y : list float) : result (list float) :=
  if (length x =? length y)%nat then Ok (zip_with PrimFloat.add x y)
  else match x, y with
       | [a], _ => Ok (map (fun b => (a + b)%float) y)
       | _, [b] => Ok (map (fun a => (a + b)%float) x)
       | _, _ => Raise ValueError
       end.

(** ** Collaborators

    The mesh, the survey with its sources and receivers, the model mappings of
    the base simulation class and the linear-solve backend are not part of the
    sources at hand; the simulation only calls them, so each is a record of
    the operations that are called. *)

(** The fields object: one complex vector per (source, field name). *)
Abbreviation Fields := (gmap (nat * string) cvec).

(** [f[src, :]]: the solutions of one source. *)
Definition fields_of_src (f : Fields) (src_id : nat) : string -> option cvec :=
  fun name => f !! (src_id, name).

(** [u[name]] *)
Definition solution (u : string -> option cvec) (name : string) : result cvec :=
  match u name with
  | Some x => Ok x
  | None => Raise KeyError
  end.

Record Mesh : Type := {
  nC : nat;
  nN : nat;
  nE : nat;
  nF : nat;
  nodalGrad : matrix;
  edgeCurl : matrix;
  getEdgeInnerProduct : float -> matrix;
  getFaceInnerProduct : list float -> matrix;
  (** [mesh.getFaceInnerProductDeriv(sigma)(u)] *)
  getFaceInnerProductDeriv : list float -> cvec -> matrix
}.

Record Receiver : Type := {
  component : string;
  (** [rx.evalDeriv(src, mesh, f, v)]: one real datum per location. *)
  evalDeriv : nat -> Mesh -> Fields -> cvec -> list float;
  (** [rx.evalDeriv(src, mesh, f, v, adjoint=True)] *)
  evalDeriv_adjoint : nat -> Mesh -> Fields -> list float -> ndarray
}.

Record Source : Type := {
  src_id : nat;
  receiver_list : list Receiver;
  (** [Src.S_e(self)]: the source term, depending on the state of the
      simulation through the current model. *)
  S_e : option (list float) -> ndarray;
  S_eDeriv : option (list float) -> cvec -> bool -> ndarray;
  S_eDeriv_m : option (list float) -> cvec -> bool -> ndarray
}.

(** A [Data] object: [v[src, rx]]. *)
Definition Data : Type := Source -> Receiver -> list float.

Inductive data_arg : Type :=
  | RawVector (v : list float)
  | DataObject (d : Data).

Record Survey : Type := {
  frequencies : list float;
  get_sources_by_frequency : float -> list Source;
  nD : nat;
  (** [Data(survey, v)]: the survey's own partition of a data vector. *)
  mkData : list float -> Data
}.

Definition num_frequencies (s : Survey) : nat := length (frequencies s).

(** A factorization handle of the backend: [Ainv * rhs] and [Ainv.clean()],
    and the matrix it was built from. *)
Record Factorization : Type := {
  fA : matrix;
  fsolve : ndarray -> result ndarray;
  clean : result unit
}.

Record Config : Type := {
  mesh : Mesh;
  survey : Survey;
  (** [self.Solver(A, **self.solver_opts)] *)
  Solver : matrix -> result Factorization;
  (** [scipy.constants.mu_0] *)
  mu_0 : float;
  (** Properties of the base simulation class, functions of [self.model]. *)
  sigma : option (list float) -> list float;
  sigmaDeriv : option (list float) -> matrix;
  MfMui : option (list float) -> matrix;
  MeSigma : option (list float) -> matrix;
  MeSigmaDeriv : option (list float) -> cvec -> cvec -> bool -> cvec;
  (** [F.compute()] on a fields object of the 1-D formulation, a method of
      the fields class. *)
  Fields_compute : Fields -> result Fields;
  (** Whether [np.max] keeps the later of two entries that compare equal.
      Such entries differ only when they are zeros of opposite signs, and
      which of the two the reduction of numpy returns depends on the
      instructions it is compiled to. *)
  max_keeps_later : float -> float -> bool
}.

(** ** The mutable simulation object *)

Inductive event : Type :=
  | Factorize (A : matrix)
  | Release (slot : nat).

(** The attributes of the simulation that one method writes and another
    reads.  The 1-D formulation also assigns [self._MeMui], [self._MfSigma]
    and [self._MfSigmaDeriv]: the first is a cache of a constant, the other
    two are overwritten at every call and read back at once, so that none of
    them carries anything from one call to the next; they are not part of the
    state below. *)
Record state : Type := {
  model : option (list float);
  (** [self.Ainv]; [None] as long as the attribute has not been assigned
      (nothing assigns it before the forward pass of the 3-D formulation). *)
  Ainv : option (list (option Factorization));
  (** The factorizations requested from the backend and the releases of
      its handles, latest first. *)
  events : list event
}.

Definition M (A : Type) : Type := state -> result A * state.

Definition ret {A} (a : A) : M A := fun st => (Ok a, st).
Definition raise {A} (e : exn) : M A := fun st => (Raise e, st).
Definition bind {A B} (m : M A) (k : A -> M B) : M B :=
  fun st =>
    match m st with
    | (Ok a, st') => k a st'
    | (Raise e, st') => (Raise e, st')
    end.
Definition lift {A} (r : result A) : M A := fun st => (r, st).

Notation "'let*' x ':=' e 'in' k" := (bind e (fun x => k))
  (at level 10, x pattern, e at level 100, k at level 200).
Notation "e ';;' k" := (bind e (fun _ => k))
  (at level 100, k at level 200, right associativity).

(** [try: body  except: pass] *)
Definition try_except_pass (body : M unit) : M unit :=
  fun st => let '(_, st') := body st in (Ok tt, st').

Definition get_model : M (option (list float)) := fun st => (Ok (model st), st).
Definition set_model (m : list float) : M unit :=
  fun st => (Ok tt, {| model := Some m; Ainv := Ainv st; events := events st |}).
Definition set_Ainv (l : list (option Factorization)) : M unit :=
  fun st => (Ok tt, {| model := model st; Ainv := Some l; events := events st |}).
Definition log (e : event) : M unit :=
  fun st => (Ok tt, {| model := model st; Ainv := Ainv st; events := e :: events st |}).

(** [self.Ainv[i]]; reading the attribute before it has been assigned is
    an [AttributeError]. *)
Definition get_Ainv (i : nat) : M (option Factorization) :=
  fun st =>
    match Ainv st with
    | None => (Raise AttributeError, st)
    | Some l => (index l i, st)
    end.

(** [self.Ainv[i] = F] *)
Definition store_Ainv (i : nat) (F : Factorization) : M unit :=
  fun st =>
    match Ainv st with
    | None => (Raise AttributeError, st)
    | Some l =>
        if decide (i < length l)
        then (Ok tt, {| model := model st; Ainv := Some (<[i := Some F]> l);
                        events := events st |})
        else (Raise IndexError, st)
    end.

(** [self.Ainv[i] * x] *)
Definition Ainv_mul (i : nat) (x : ndarray) : M ndarray :=
  let* slot := get_Ainv i in
  match slot with
  | None => raise TypeError
  | Some F => lift (fsolve F x)
  end.

(** [self.Solver(A, **self.solver_opts)], with the call recorded. *)
Definition call_Solver (cfg : Config) (A : matrix) : M Factorization :=
  log (Factorize A) ;; lift (Solver cfg A).

(** [self.Ainv[i].clean()], a successful release being recorded. *)
Definition call_clean (i : nat) : M unit :=
  let* slot := get_Ainv i in
  match slot with
  | None => raise AttributeError
  | Some F => lift (clean F) ;; log (Release i)
  end.

Definition is_factorize (e : event) : bool :=
  match e with Factorize _ => true | Release _ => false end.

(** Number of factorizations requested so far. *)
Definition factorizations (st : state) : nat :=
  length (filter (fun e => is_factorize e = true) (events st)).

(** First source of a frequency: [get_sources_by_frequency(freq)[0]]. *)
Definition first_source (cfg : Config) (freq : float) : result Source :=
  index (get_sources_by_frequency (survey cfg) freq) 0.

(** ** Simulation1DPrimarySecondary *)

Module Sim1D.

(** [self.MeMui]: the cached [mesh.getEdgeInnerProduct(1.0/mu_0)]. *)
Definition MeMui (cfg : Config) : matrix :=
  getEdgeInnerProduct (mesh cfg) (1 / mu_0 cfg)%float.

(** [self.MfSigma]: computed at every access (and kept in [self._MfSigma],
    which nothing reads). *)
Definition MfSigma (cfg : Config) : M matrix :=
  let* m := get_model in
  ret (getFaceInnerProduct (mesh cfg) (sigma cfg m)).

(** [self.MfSigmaDeriv(u)]: computed at every call (and kept in
    [self._MfSigmaDeriv], which nothing reads). *)
Definition MfSigmaDeriv (cfg : Config) (u : cvec) : M matrix :=
  let* m := get_model in
  lift (matmul (getFaceInnerProductDeriv (mesh cfg) (sigma cfg m) u)
               (sigmaDeriv cfg m)).

Definition getA (cfg : Config) (freq : float) : M matrix :=
  let MeMui := MeMui cfg in
  let* MfSigma := MfSigma cfg in
  let C := nodalGrad (mesh cfg) in
  lift (let+ CtM := matmul (transpose C) MeMui in
        let+ CtMC := matmul CtM C in
        madd CtMC (mscale (iw freq) MfSigma)).

Definition getADeriv (cfg : Config) (freq : float)
    (u : string -> option cvec) (v : cvec) (adjoint : bool) : M ndarray :=
  let* u_src := lift (solution u "e_1dSolution") in
  let* dMfSigma_dm := MfSigmaDeriv cfg u_src in
  if adjoint then
    let* x := lift (matvec (transpose dMfSigma_dm) v) in
    ret (Arr1 (vscale (iw freq) x))
  else
    let* x := lift (matvec dMfSigma_dm v) in
    ret (Arr1 (vscale (iw freq) x)).

Definition getRHS (cfg : Config) (freq : float) : M ndarray :=
  let* Src := lift (first_source cfg freq) in
  let* m := get_model in
  let* yx := lift (column (S_e Src m) 1) in
  let S_e := mkvc2 yx in
  ret (Arr2 (mscale (miw freq) S_e)).

Definition getRHSDeriv (cfg : Config) (freq : float) (v : cvec)
    (adjoint : bool) : M ndarray :=
  let* Src := lift (first_source cfg freq) in
  let* m := get_model in
  let S_eDeriv := mkvc (S_eDeriv_m Src m v adjoint) in
  ret (Arr1 (vscale (miw freq) S_eDeriv)).

(** The loop of [fields] over the frequencies; the factorization is a
    local variable of the loop body. *)
Fixpoint fields_loop (cfg : Config) (F : Fields) (freqs : list float) : M Fields :=
  match freqs with
  | [] => ret F
  | freq :: rest =>
      let* A := getA cfg freq in
      let* rhs := getRHS cfg freq in
      let* Ainv := call_Solver cfg A in
      let* e_s := lift (fsolve Ainv rhs) in
      let* Src := lift (first_source cfg freq) in
      fields_loop cfg (<[(src_id Src, "e_1dSolution") := mkvc e_s]> F) rest
  end.

Definition fields (cfg : Config) (m : option (list float)) : M Fields :=
  match m with Some m' => set_model m' | None => ret tt end ;;
  fields_loop cfg ∅ (frequencies (survey cfg)).

End Sim1D.

(** ** Simulation3DPrimarySecondary *)

Module Sim3D.

Definition getA (cfg : Config) (freq : float) : M matrix :=
  let* m := get_model in
  let Mfmui := MfMui cfg m in
  let Mesig := MeSigma cfg m in
  let C := edgeCurl (mesh cfg) in
  lift (let+ CtM := matmul (transpose C) Mfmui in
        let+ CtMC := matmul CtM C in
        madd CtMC (mscale (iw freq) Mesig)).

Definition getADeriv (cfg : Config) (freq : float)
    (u : string -> option cvec) (v : cvec) (adjoint : bool) : M ndarray :=
  let sol0 := "e_pxSolution" in
  let sol1 := "e_pySolution" in
  let* m := get_model in
  if adjoint then
    let* u0 := lift (solution u sol0) in
    let* u1 := lift (solution u sol1) in
    let* dMe_dsigV :=
      lift (vadd (MeSigmaDeriv cfg m u0 (take (nE (mesh cfg)) v) adjoint)
                 (MeSigmaDeriv cfg m u1 (drop (nE (mesh cfg)) v) adjoint)) in
    ret (Arr1 (vscale (iw freq) dMe_dsigV))
  else
    let* u0 := lift (solution u sol0) in
    let* u1 := lift (solution u sol1) in
    let* dMe_dsigV :=
      lift (hstack (mkvc2 (MeSigmaDeriv cfg m u0 v adjoint))
                   (mkvc2 (MeSigmaDeriv cfg m u1 v adjoint))) in
    ret (Arr2 (mscale (iw freq) dMe_dsigV)).

Definition getRHS (cfg : Config) (freq : float) : M ndarray :=
  let* Src := lift (first_source cfg freq) in
  let* m := get_model in
  let S_e := S_e Src m in
  ret (nd_scale (miw freq) S_e).

Definition getRHSDeriv (cfg : Config) (freq : float) (v : cvec)
    (adjoint : bool) : M ndarray :=
  let* Src := lift (first_source cfg freq) in
  let* m := get_model in
  let S_eDeriv := S_eDeriv Src m v adjoint in
  let dRHS_dm := nd_scale (miw freq) S_eDeriv in
  ret dRHS_dm.

(** [for i in range(num_frequencies): self.Ainv[i].clean()] *)
Fixpoint clean_loop (slots : list nat) : M unit :=
  match slots with
  | [] => ret tt
  | i :: rest => call_clean i ;; clean_loop rest
  end.

(** The body of the [try] block at the head of [fields]. *)
Definition release_held (cfg : Config) : M unit :=
  let* slot0 := get_Ainv 0 in
  match slot0 with
  | Some _ => clean_loop (seq 0 (num_frequencies (survey cfg)))
  | None => ret tt
  end.

Fixpoint fields_loop (cfg : Config) (F : Fields) (nf : nat)
    (freqs : list float) : M Fields :=
  match freqs with
  | [] => ret F
  | freq :: rest =>
      let* A := getA cfg freq in
      let* rhs := getRHS cfg freq in
      let* Anew := call_Solver cfg A in
      store_Ainv nf Anew ;;
      let* e_s := Ainv_mul nf rhs in
      let* Src := lift (first_source cfg freq) in
      let* px := lift (column e_s 0) in
      let* py := lift (column e_s 1) in
      fields_loop cfg
        (<[(src_id Src, "e_pySolution") := py]>
           (<[(src_id Src, "e_pxSolution") := px]> F))
        (S nf) rest
  end.

Definition fields (cfg : Config) (m : option (list float)) : M Fields :=
  match m with Some m' => set_model m' | None => ret tt end ;;
  try_except_pass (release_held cfg) ;;
  set_Ainv (replicate (num_frequencies (survey cfg)) None) ;;
  fields_loop cfg ∅ 0 (frequencies (survey cfg)).

End Sim3D.

(** ** BaseNSEMSimulation

    The two subclasses override [fields], [getADeriv] and [getRHSDeriv]; the
    methods of the base class reach them through [self]. *)

Inductive Formulation : Type :=
  | Simulation1DPrimarySecondary
  | Simulation3DPrimarySecondary.

Definition fields (V : Formulation) : Config -> option (list float) -> M Fields :=
  match V with
  | Simulation1DPrimarySecondary => Sim1D.fields
  | Simulation3DPrimarySecondary => Sim3D.fields
  end.

(** [.compute()] on what [self.fields(m)] returns: the 3-D method is a
    delayed task, which [compute] runs; the 1-D method has already run and
    returned its fields object. *)
Definition computed (V : Formulation) (cfg : Config) (F : Fields) : result Fields :=
  match V with
  | Simulation1DPrimarySecondary => Fields_compute cfg F
  | Simulation3DPrimarySecondary => Ok F
  end.

Definition getADeriv (V : Formulation) :
    Config -> float -> (string -> option cvec) -> cvec -> bool -> M ndarray :=
  match V with
  | Simulation1DPrimarySecondary => Sim1D.getADeriv
  | Simulation3DPrimarySecondary => Sim3D.getADeriv
  end.

Definition getRHSDeriv (V : Formulation) :
    Config -> float -> cvec -> bool -> M ndarray :=
  match V with
  | Simulation1DPrimarySecondary => Sim1D.getRHSDeriv
  | Simulation3DPrimarySecondary => Sim3D.getRHSDeriv
  end.

(** [int(a / b)] for non-negative Python integers: the quotient is the
    correctly rounded double, then truncated; as long as [a + b < 2^53] (any
    actual survey) that is the integer quotient.  A zero divisor raises. *)
Definition int_div (a b : nat) : result nat :=
  if (b =? 0)%nat then Raise ZeroDivisionError else Ok (a / b)%nat.

Section Base.

Variable V : Formulation.
Variable cfg : Config.

(** *** Jvec *)

(** The inner loop over the receivers of a source: one delayed
    [rx.evalDeriv(src, self.mesh, f, mkvc(du_dm_v))] per receiver. *)
Definition Jvec_receivers (src : Source) (f : Fields) (du_dm_v : ndarray)
    : list (list float) :=
  map (fun rx => evalDeriv rx (src_id src) (mesh cfg) f (mkvc du_dm_v))
      (receiver_list src).

(** [self.Ainv[nF] * (-dA_dm_v + dRHS_dm_v)] *)
Definition Jvec_du_dm_v (nF : nat) (dA_dm_v dRHS_dm_v : ndarray) : M ndarray :=
  let* rhs := lift (nd_add (nd_neg dA_dm_v) dRHS_dm_v) in
  Ainv_mul nF rhs.

Definition Jvec_source (f : Fields) (v : list float) (nF : nat) (freq : float)
    (src : Source) : M (list (list float)) :=
  let u_src := fields_of_src f (src_id src) in
  let* dA_dm_v := getADeriv V cfg freq u_src (upcast v) false in
  let* dRHS_dm_v := getRHSDeriv V cfg freq (upcast v) false in
  let* du_dm_v := Jvec_du_dm_v nF dA_dm_v dRHS_dm_v in
  ret (Jvec_receivers src f du_dm_v).

Fixpoint Jvec_sources (f : Fields) (v : list float) (nF : nat) (freq : float)
    (Jv : list (list float)) (srcs : list Source) : M (list (list float)) :=
  match srcs with
  | [] => ret Jv
  | src :: rest =>
      let* new := Jvec_source f v nF freq src in
      Jvec_sources f v nF freq (Jv ++ new) rest
  end.

Fixpoint Jvec_frequencies (f : Fields) (v : list float) (nF : nat)
    (Jv : list (list float)) (freqs : list float) : M (list (list float)) :=
  match freqs with
  | [] => ret Jv
  | freq :: rest =>
      let* Jv' := Jvec_sources f v nF freq Jv
                    (get_sources_by_frequency (survey cfg) freq) in
      Jvec_frequencies f v (S nF) Jv' rest
  end.

(** [da.concatenate(Jv, axis=0).compute()] *)
Definition concatenate (Jv : list (list float)) : result (list float) :=
  match Jv with
  | [] => Raise ValueError
  | _ => Ok (concat Jv)
  end.

(** The declared length of each block of [Jv]; only its evaluation can
    fail, the value is a shape annotation of the task graph. *)
Definition Jvec_m_dim : result nat :=
  let number_of_frequencies := length (frequencies (survey cfg)) in
  let+ freq0 := index (frequencies (survey cfg)) 0 in
  let+ src0 := index (get_sources_by_frequency (survey cfg) freq0) 0 in
  let number_of_components := length (receiver_list src0) in
  int_div (nD (survey cfg)) (number_of_components * number_of_frequencies).

(** [rx.evalDeriv] is dask-delayed in the source and runs when the
    concatenation is computed, after the loops; it is a function of its
    arguments, and is evaluated here where the source builds the task. *)
Definition Jvec (m v : list float) (f : option Fields) : M (list float) :=
  let* f := match f with
            | None => let* F := fields V cfg (Some m) in lift (computed V cfg F)
            | Some f => ret f
            end in
  set_model m ;;
  let* m_dim := lift Jvec_m_dim in
  let* Jv := Jvec_frequencies f v 0 [] (frequencies (survey cfg)) in
  lift (concatenate Jv).

(** *** Jtvec *)

(** [PTv = np.zeros((self.mesh.nE, 2), dtype=complex)] *)
Definition PTv_init : ndarray := Arr2 (zeros (nE (mesh cfg)) 2).


Definition Jtvec_receiver (src : Source) (f : Fields) (v : Data)
    (PTv : ndarray) (rx : Receiver) : result ndarray :=
  let real_or_imag := component rx in
  if String.eqb real_or_imag "real" then
    nd_add PTv (evalDeriv_adjoint rx (src_id src) (mesh cfg) f (v src rx))
  else if String.eqb real_or_imag "imag" then
    nd_add PTv (nd_neg (evalDeriv_adjoint rx (src_id src) (mesh cfg) f (v src rx)))
  else Raise (Exception "Must be real or imag").

Fixpoint Jtvec_receivers (src : Source) (f : Fields) (v : Data)
    (PTv : ndarray) (rxs : list Receiver) : result ndarray :=
  match rxs with
  | [] => Ok PTv
  | rx :: rest =>
      let+ PTv' := Jtvec_receiver src f v PTv rx in
      Jtvec_receivers src f v PTv' rest
  end.

(** [mkvc(self.Ainv[nF] * PTv)] *)
Definition Jtvec_dA_duIT (nF : nat) (PTv : ndarray) : M cvec :=
  let* x := Ainv_mul nF PTv in
  ret (mkvc x).

Definition as_vector (a : ndarray) : result cvec :=
  match a with
  | Arr1 x => Ok x
  | Arr2 _ => Raise ValueError
  end.

(** The body of the loop over the sources.  In the source the solve
    [self.Ainv[nF] * PTv] runs inside the loop, while [getADeriv],
    [getRHSDeriv] and the sums that follow are dask-delayed and run when
    [Jtv.compute()] is reached, after the loops, in an order left to the
    scheduler.  They read the model only, which the loops do not change, so
    that they return what they return here, where they are evaluated in
    place; when the steps of several sources raise, the exception that
    reaches the caller can be another one than here. *)
Definition Jtvec_source (f : Fields) (v : Data) (nF : nat) (freq : float)
    (Jtv : list float) (src : Source) : M (list float) :=
  let u_src := fields_of_src f (src_id src) in
  let* PTv := lift (Jtvec_receivers src f v PTv_init (receiver_list src)) in
  let* dA_duIT := Jtvec_dA_duIT nF PTv in
  let* dA_dmT := getADeriv V cfg freq u_src dA_duIT true in
  let* dRHS_dmT := getRHSDeriv V cfg freq dA_duIT true in
  let* du_dmT := lift (let+ s := nd_add (nd_neg dA_dmT) dRHS_dmT in as_vector s) in
  lift (radd Jtv (real_part du_dmT)).

Fixpoint Jtvec_sources (f : Fields) (v : Data) (nF : nat) (freq : float)
    (Jtv : list float) (srcs : list Source) : M (list float) :=
  match srcs with
  | [] => ret Jtv
  | src :: rest =>
      let* Jtv' := Jtvec_source f v nF freq Jtv src in
      Jtvec_sources f v nF freq Jtv' rest
  end.

Fixpoint Jtvec_frequencies (f : Fields) (v : Data) (nF : nat)
    (Jtv : list float) (freqs : list float) : M (list float) :=
  match freqs with
  | [] => ret Jtv
  | freq :: rest =>
      let* Jtv' := Jtvec_sources f v nF freq Jtv
                     (get_sources_by_frequency (survey cfg) freq) in
      Jtvec_frequencies f v (S nF) Jtv' rest
  end.

Definition Jtvec (m : list float) (v : data_arg) (f : option Fields)
    : M (list float) :=
  let* f := match f with
            | None => let* F := fields V cfg (Some m) in lift (computed V cfg F)
            | Some f => ret f
            end in
  set_model m ;;
  let v := match v with
           | DataObject d => d
           | RawVector x => mkData (survey cfg) x
           end in
  let Jtv := replicate (length m) 0%float in
  Jtvec_frequencies f v 0 Jtv (frequencies (survey cfg)).

(** *** getJtJdiag *)

(** [np.max]: the largest entry, a NaN entry making the result NaN; between
    two entries that compare equal the choice is [max_keeps_later]. *)
Definition fmax (x y : float) : float :=
  if is_nan x then x else if is_nan y then y
  else if (y <? x)%float then x
  else if (x <? y)%float then y
  else if max_keeps_later cfg x y then y else x.

Definition np_max (d : list float) : result float :=
  match d with
  | [] => Raise ValueError
  | x :: rest => Ok (fold_left fmax rest x)
  end.

(** [int(self.survey.nD / 10)], see [int_div]. *)
Definition default_k : nat := (nD (survey cfg) / 10)%nat.

(** [diagEst] of the package utilities is not part of the sources at hand:
    it receives the operator, the model size and the number of probes. *)
Variable diagEst : (list float -> M (list float)) -> nat -> nat -> M (list float).

Definition JtJv (m : list float) (v : list float) : M (list float) :=
  let* Jv := Jvec m v None in
  Jtvec m (RawVector Jv) None.

Definition getJtJdiag (m : list float) (k : option nat) : M (list float) :=
  let k := match k with None => default_k | Some k => k end in
  let* JtJdiag := diagEst (JtJv m) (length m) k in
  let* mx := lift (np_max JtJdiag) in
  ret (map (fun x => (x / mx)%float) JtJdiag).

End Base.

(** ** Sample collaborators

    A one-edge 3-D mesh and a one-cell 1-D mesh with a direct backend for
    1-by-1 systems, small enough to evaluate the simulation on. *)

Module Sample.

(** Division of every entry by the single matrix entry. *)
Definition solve1 (a : complex) (x : ndarray) : result ndarray :=
  match x with
  | Arr1 [b] => Ok (Arr1 [cdiv b a])
  | Arr2 (Mat 1 cs) =>
      if forallb (fun c => (length c =? 1)%nat) cs
      then Ok (Arr2 (Mat 1 (map (map (fun b => cdiv b a)) cs)))
      else Raise ValueError
  | _ => Raise ValueError
  end.

Definition Solver1 (release : result unit) (A : matrix) : result Factorization :=
  match A with
  | Mat 1 [[a]] => Ok {| fA := A; fsolve := solve1 a; clean := release |}
  | _ => Raise (BackendError "not a 1-by-1 system")
  end.

Definition head_or0 (x : cvec) : complex := nth 0 x c0.

(** A receiver reading the real (or imaginary) part of the first
    polarization on the single edge. *)
Definition rx (tag : string) : Receiver :=
  {| component := tag;
     evalDeriv := fun _ _ _ du =>
       if String.eqb tag "imag" then [im (head_or0 du)] else [re (head_or0 du)];
     evalDeriv_adjoint := fun _ _ _ w =>
       Arr2 (Mat 1 [[of_real (nth 0 w 0%float)]; [c0]]) |}.

Definition src (rxs : list Receiver) : Source :=
  {| src_id := 0;
     receiver_list := rxs;
     S_e := fun _ => Arr2 (Mat 1 [[Cx 1 0]; [Cx 0 1]]);
     S_eDeriv := fun _ v adjoint =>
       if adjoint then Arr1 [c0] else Arr2 (zeros 1 2);
     S_eDeriv_m := fun _ v adjoint =>
       if adjoint then Arr1 [c0] else Arr1 [c0; c0] |}.

Definition survey_of (freqs : list float) (rxs : list Receiver) (n : nat) : Survey :=
  {| frequencies := freqs;
     get_sources_by_frequency := fun _ => [src rxs];
     nD := n;
     mkData := fun w _ _ => w |}.

Definition mesh3 : Mesh :=
  {| nC := 1; nN := 0; nE := 1; nF := 1;
     nodalGrad := Mat 0 [];
     edgeCurl := Mat 1 [[Cx 1 0]];
     getEdgeInnerProduct := fun x => Mat 1 [[of_real x]];
     getFaceInnerProduct := fun s => Mat 1 [[of_real (nth 0 s 0%float)]];
     getFaceInnerProductDeriv := fun _ u => Mat 1 [[head_or0 u]] |}.

(** One cell between two nodes: the nodal gradient is 1-by-2 and the
    face (node) inner product puts half of the cell value on each node. *)
Definition mesh1 : Mesh :=
  {| nC := 1; nN := 2; nE := 1; nF := 2;
     nodalGrad := Mat 1 [[Cx (-1) 0]; [Cx 1 0]];
     edgeCurl := Mat 0 [];
     getEdgeInnerProduct := fun x => Mat 1 [[of_real x]];
     getFaceInnerProduct := fun s =>
       let h := of_real (nth 0 s 0 * 0.5)%float in
       Mat 2 [[h; c0]; [c0; h]];
     getFaceInnerProductDeriv := fun _ u =>
       Mat 2 [[cmul (Cx 0.5 0) (nth 0 u c0); cmul (Cx 0.5 0) (nth 1 u c0)]] |}.

Definition model_or0 (m : option (list float)) : list float :=
  match m with Some x => x | None => [] end.

(** [mu_0] is the double nearest to 1.25663706212e-06, the vacuum
    permeability of [scipy.constants] (CODATA 2018); between a zero and the
    zero of the opposite sign [np.max] returns the positive one, as the
    maximum of IEEE 754 does. *)
Definition config (msh : Mesh) (svy : Survey) (release : result unit) : Config :=
  {| mesh := msh;
     survey := svy;
     Solver := Solver1 release;
     mu_0 := 0x1.515370fcb41e4p-20%float;
     sigma := model_or0;
     sigmaDeriv := fun _ => Mat 1 [[Cx 1 0]];
     MfMui := fun _ => Mat 1 [[Cx 1 0]];
     MeSigma := fun m => Mat 1 [[of_real (nth 0 (model_or0 m) 0%float)]];
     MeSigmaDeriv := fun _ u v _ => [cmul (head_or0 u) (head_or0 v)];
     Fields_compute := Ok;
     max_keeps_later := fun x _ => get_sign x |}.

Definition st0 : state := {| model := None; Ainv := None; events := [] |}.

(** The float of a count: exact below 2^53. *)
Fixpoint float_of_nat (n : nat) : float :=
  match n with
  | O => 0%float
  | S n' => (float_of_nat n' + 1)%float
  end.

(** The sum over the probes [v] of the entrywise products [op(v) * v]. *)
Fixpoint probe_sum (op : list float -> M (list float)) (acc : list float)
    (probes : list (list float)) : M (list float) :=
  match probes with
  | [] => ret acc
  | v :: rest =>
      let* Av := op v in
      let* acc' := lift (radd acc (zip_with PrimFloat.mul Av v)) in
      probe_sum op acc' rest
  end.

(** Modelled from the spec: [diagEst] of the package utilities, which is
    not part of the sources at hand: a Hutchinson-style estimator that
    applies the operator to [k] probe vectors and averages the entrywise
    products; the random draws are the explicit list [probes]. *)
Definition diagEst (probes : list (list float))
    (op : list float -> M (list float)) (n k : nat) : M (list float) :=
  let* s := probe_sum op (replicate n 0%float) (take k probes) in
  ret (map (fun x => (x / float_of_nat k)%float) s).

End Sample.

(** ** Which parts of the simulation object a computation can change

    [frame R c]: from every state, [c] ends in an [R]-related one.  With [R]
    the equality this says that [c] only reads the object; with [R] the
    agreement on [self.model] that it leaves the model alone. *)

Definition frame (R : state -> state -> Prop) {A} (c : M A) : Prop :=
  forall st, R st (snd (c st)).

Definition readonly {A} (c : M A) : Prop := frame eq c.

Definition same_model (s s' : state) : Prop := model s' = model s.
Definition keeps_model {A} (c : M A) : Prop := frame same_model c.

(** Releasing only appends [Release] events. *)
Definition same_core (s s' : state) : Prop :=
  model s' = model s /\ Ainv s' = Ainv s /\ factorizations s' = factorizations s.

Definition add_event (e : event) (st : state) : state :=
  {| model := model st; Ainv := Ainv st; events := e :: events st |}.

(** ** The adjoint steps as the specification words them

    Two definitions that follow the words of the specification instead of
    the source, to be compared with [Jtvec_dA_duIT] and [getADeriv]. *)

(** "Apply the adjoint of the cached factorization": the factorization of the
    conjugate transpose of the matrix behind the cached handle. *)
Definition adjoint_factorization (cfg : Config) (Fz : Factorization)
    : result Factorization :=
  Solver cfg (ctranspose (fA Fz)).

Definition Jtvec_dA_duIT_adjoint (cfg : Config) (nF : nat) (PTv : ndarray) : M cvec :=
  let* slot := get_Ainv nF in
  match slot with
  | None => raise TypeError
  | Some Fz =>
      let* FH := lift (adjoint_factorization cfg Fz) in
      let* x := lift (fsolve FH PTv) in
      ret (mkvc x)
  end.

(** "iw(f) d(M_sigma)/dm" as one linear operator and "its conjugate-transpose
    action". *)
Definition getADeriv_operator (freq : float) (dM : matrix) : matrix :=
  mscale (iw freq) dM.

Definition conjugate_transpose_action (L : matrix) (v : cvec) : result cvec :=
  matvec (ctranspose L) v.

(** ** Scenarios on the sample collaborators *)

Module Scenario.
Import Sample.

Definition V3 : Formulation := Simulation3DPrimarySecondary.
Definition V1 : Formulation := Simulation1DPrimarySecondary.

(** One frequency (1 Hz), one source, one "real" receiver, one datum. *)
Definition cfgA : Config :=
  config mesh3 (survey_of [1%float] [rx "real"] 1) (Ok tt).

(** The same survey with a receiver tagged "abs" after the first. *)
Definition cfgTag : Config :=
  config mesh3 (survey_of [1%float] [rx "real"; rx "abs"] 2) (Ok tt).

(** Two frequencies. *)
Definition cfgB : Config :=
  config mesh3 (survey_of [1%float; 2%float] [rx "real"] 2) (Ok tt).

(** The 1-D mesh, five data. *)
Definition cfg1 : Config :=
  config mesh1 (survey_of [1%float] [rx "real"] 5) (Ok tt).

(** Two frequencies and a backend whose handles cannot be released. *)
Definition cfgFail : Config :=
  config mesh3 (survey_of [1%float; 2%float] [rx "real"] 2)
    (Raise (BackendError "release failed")).

Definition m1 : list float := [2%float].
Definition m2 : list float := [3%float].
Definition v1 : list float := [1%float].

(** The simulation after [fields(m1)] on [cfgA]. *)
Definition stA : state := snd (fields V3 cfgA (Some m1) st0).

(** The simulation after [fields(m1)] on [cfgFail]. *)
Definition stFail : state := snd (fields V3 cfgFail (Some m1) st0).

(** The cache of [stA] and the handle in its slot 0. *)
Definition slotsA : list (option Factorization) :=
  match Ainv stA with Some l => l | None => [] end.
Definition FzA : Factorization :=
  match slotsA with
  | Some Fz :: _ => Fz
  | _ => {| fA := Mat 0 []; fsolve := Ok; clean := Ok tt |}
  end.

Definition PTv1 : ndarray := Arr2 (Mat 1 [[Cx 1 0]; [c0]]).

(** A handle on the 1-by-1 system [1], with a given outcome of [clean()]. *)
Definition handle (release : result unit) : Factorization :=
  {| fA := Mat 1 [[Cx 1 0]]; fsolve := solve1 (Cx 1 0); clean := release |}.

(** A simulation on [cfgB] holding two factorizations, the first of which
    cannot be released. *)
Definition stB : state :=
  {| model := Some m1;
     Ainv := Some [Some (handle (Raise (BackendError "release failed")));
                   Some (handle (Ok tt))];
     events := [] |}.

(** Both held factorizations release cleanly. *)
Definition stB_ok : state :=
  {| model := Some m1;
     Ainv := Some [Some (handle (Ok tt)); Some (handle (Ok tt))];
     events := [] |}.

(** 1-D solutions on the two nodes and an adjoint-mode argument. *)
Definition u1 : string -> option cvec :=
  fun _ => Some [Cx 1 0; Cx 1 0].
Definition w1 : cvec := [Cx 1 0; c0].
Definition st1 : state := {| model := Some m1; Ainv := None; events := [] |}.

(** The right-hand side of the 1-D system at 1 Hz. *)
Definition rhs1 : ndarray :=
  match fst (Sim1D.getRHS cfg1 1%float st1) with
  | Ok r => r
  | Raise _ => Arr1 []
  end.

(** Sign of the imaginary part of the first entry of a result. *)
Definition im_negative (r : result cvec) : bool :=
  match r with
  | Ok (x :: _) => (im x <? 0)%float
  | _ => false
  end.

End Scenario.

(** ** The layout of the survey

    The number of receivers visited by the loops of [Jvec] and [Jtvec], and
    the names under which each formulation stores its solutions (the class
    attribute [_solutionType]). *)

Definition receivers_at (cfg : Config) (freq : float) : nat :=
  list_sum (map (fun src => length (receiver_list src))
                (get_sources_by_frequency (survey cfg) freq)).

Definition receivers_total (cfg : Config) : nat :=
  list_sum (map (receivers_at cfg) (frequencies (survey cfg))).

Definition solution_names (V : Formulation) : list string :=
  match V with
  | Simulation1DPrimarySecondary => ["e_1dSolution"%string]
  | Simulation3DPrimarySecondary => ["e_pxSolution"%string; "e_pySolution"%string]
  end.

(** The simulation object with its model replaced. *)
Definition with_model (m : list float) (st : state) : state :=
  {| model := Some m; Ainv := Ainv st; events := events st |}.

(** The fields object that the loops of [Jvec] work with and the simulation
    they run in: the fields given and the simulation with its model set, or
    what the forward pass returns and leaves behind. *)
Definition fields_used (V : Formulation) (cfg : Config) (m : list float)
    (f : option Fields) (st : state) : Fields :=
  match f with
  | Some F => F
  | None =>
      match fst (fields V cfg (Some m) st) with
      | Ok F0 => match computed V cfg F0 with Ok F => F | Raise _ => ∅ end
      | Raise _ => ∅
      end
  end.

Definition state_used (V : Formulation) (cfg : Config) (m : list float)
    (f : option Fields) (st : state) : state :=
  with_model m (match f with
                | Some _ => st
                | None => snd (fields V cfg (Some m) st)
                end).

(** What the step of one source appends to [Jv] when its frequency has
    position [nF] in the survey (nothing when the step raises), and the
    blocks of a frequency and of the whole survey. *)
Definition source_blocks (V : Formulation) (cfg : Config) (f : Fields)
    (v : list float) (st : state) (nF : nat) (freq : float) (src : Source)
    : list (list float) :=
  match fst (Jvec_source V cfg f v nF freq src st) with
  | Ok new => new
  | Raise _ => []
  end.

Definition frequency_blocks (V : Formulation) (cfg : Config) (f : Fields)
    (v : list float) (st : state) (nF : nat) (freq : float)
    : list (list float) :=
  concat (map (source_blocks V cfg f v st nF freq)
              (get_sources_by_frequency (survey cfg) freq)).

Definition survey_blocks (V : Formulation) (cfg : Config) (f : Fields)
    (v : list float) (st : state) : list (list float) :=
  concat (imap (frequency_blocks V cfg f v st) (frequencies (survey cfg))).

(** [du_dm_v] of one source: the derivatives of the system and of the
    right-hand side, and the solve with slot [nF] of the cache. *)
Definition source_du_dm_v (V : Formulation) (cfg : Config) (f : Fields)
    (v : list float) (st : state) (nF : nat) (freq : float) (src : Source)
    : result ndarray :=
  fst ((let* dA_dm_v := getADeriv V cfg freq (fields_of_src f (src_id src))
                          (upcast v) false in
        let* dRHS_dm_v := getRHSDeriv V cfg freq (upcast v) false in
        Jvec_du_dm_v nF dA_dm_v dRHS_dm_v) st).

Definition perturbation (V : Formulation) (cfg : Config) (f : Fields)
    (v : list float) (st : state) (nF : nat) (freq : float) (src : Source)
    : ndarray :=
  match source_du_dm_v V cfg f v st nF freq src with
  | Ok du => du
  | Raise _ => Arr1 []
  end.

(** One block per receiver, [rx.evalDeriv] of the flattened perturbation of
    its source, frequency by frequency in the order of the survey, source by
    source within a frequency, receiver by receiver within a source. *)
Definition blocks_in_survey_order (cfg : Config) (f : Fields)
    (du : nat -> float -> Source -> ndarray) : list (list float) :=
  concat (imap (fun nF freq =>
            concat (map (fun src =>
                      map (fun rx => evalDeriv rx (src_id src) (mesh cfg) f
                                       (mkvc (du nF freq src)))
                          (receiver_list src))
                    (get_sources_by_frequency (survey cfg) freq)))
          (frequencies (survey cfg))).

(** [du_dmT] of one source in the adjoint pass: the accumulator filled by
    its receivers, the solve with slot [nF] of the cache, and the two adjoint
    derivatives. *)
Definition source_du_dmT (V : Formulation) (cfg : Config) (f : Fields)
    (v : Data) (st : state) (nF : nat) (freq : float) (src : Source)
    : result cvec :=
  fst ((let* PTv := lift (Jtvec_receivers cfg src f v (PTv_init cfg)
                            (receiver_list src)) in
        let* dA_duIT := Jtvec_dA_duIT nF PTv in
        let* dA_dmT := getADeriv V cfg freq (fields_of_src f (src_id src))
                         dA_duIT true in
        let* dRHS_dmT := getRHSDeriv V cfg freq dA_duIT true in
        lift (let+ s := nd_add (nd_neg dA_dmT) dRHS_dmT in as_vector s)) st).

(** What one source adds to [Jtv]: [du_dmT.real]. *)
Definition adjoint_contribution (V : Formulation) (cfg : Config) (f : Fields)
    (v : Data) (st : state) (nF : nat) (freq : float) (src : Source)
    : list float :=
  match source_du_dmT V cfg f v st nF freq src with
  | Ok du_dmT => real_part du_dmT
  | Raise _ => []
  end.

(** The contributions of all sources, frequency by frequency in the order
    of the survey, source by source within a frequency. *)
Definition contributions_in_survey_order (V : Formulation) (cfg : Config)
    (f : Fields) (v : Data) (st : state) : list (list float) :=
  concat (imap (fun nF freq =>
            map (adjoint_contribution V cfg f v st nF freq)
                (get_sources_by_frequency (survey cfg) freq))
          (frequencies (survey cfg))).

(** [Jtv += c] for each vector [c] of a list in turn. *)
Fixpoint radd_all (Jtv : list float) (cs : list (list float))
    : result (list float) :=
  match cs with
  | [] => Ok Jtv
  | c :: rest => let+ Jtv' := radd Jtv c in radd_all Jtv' rest
  end.

(** The data object that [Jtvec] works with. *)
Definition data_used (cfg : Config) (w : data_arg) : Data :=
  match w with
  | DataObject d => d
  | RawVector x => mkData (survey cfg) x
  end.

(** Slot [i] holds a factorization [Fz] that the backend returns for the
    system matrix of the [i]-th frequency under the model of [st]. *)
Definition fresh_slot (cfg : Config) (st : state) (i : nat) (Fz : Factorization)
    : Prop :=
  exists freq A,
    frequencies (survey cfg) !! i = Some freq
    /\ fst (Sim3D.getA cfg freq st) = Ok A
    /\ Solver cfg A = Ok Fz.

(** The cache has one slot per frequency and every occupied slot is fresh
    for the model of [ref]. *)
Definition fresh_cache_for (cfg : Config) (ref st : state) : Prop :=
  model st = model ref
  /\ exists l, Ainv st = Some l
       /\ length l = num_frequencies (survey cfg)
       /\ forall i Fz, l !! i = Some (Some Fz) -> fresh_slot cfg ref i Fz.

Definition fresh_cache (cfg : Config) (st : state) : Prop :=
  fresh_cache_for cfg st st.

Definition same_cache (s s' : state) : Prop := Ainv s' = Ainv s.

(** ** The shapes that the adjoint pass puts together *)




(** ** Further scenarios on the sample collaborators *)

Module Cases.
Import Sample.

(** A survey without frequencies. *)
Definition cfg_nofreq : Config :=
  config mesh3 (survey_of [] [rx "real"] 0) (Ok tt).

(** One frequency whose source has no receiver. *)
Definition cfg_norx : Config :=
  config mesh3 (survey_of [1%float] [] 0) (Ok tt).

(** One frequency without any source. *)
Definition cfg_nosrc : Config :=
  config mesh3
    {| frequencies := [1%float];
       get_sources_by_frequency := fun _ => [];
       nD := 0;
       mkData := fun w _ _ => w |}
    (Ok tt).

(** Two frequencies, two receivers ("real" and "imag") on the source. *)
Definition cfg2 : Config :=
  config mesh3 (survey_of [1%float; 2%float] [rx "real"; rx "imag"] 4) (Ok tt).

Definition m1 : list float := [2%float].
Definition v1 : list float := [1%float].
Definition w4 : list float := [1%float; 1%float; 1%float; 1%float].

(** A backend that factorizes but whose handles cannot solve. *)
Definition config_unsolvable (svy : Survey) : Config :=
  {| mesh := mesh3;
     survey := svy;
     Solver := fun A =>
       Ok {| fA := A; fsolve := fun _ => Raise (BackendError "solve failed");
             clean := Ok tt |};
     mu_0 := 0x1.515370fcb41e4p-20%float;
     sigma := model_or0;
     sigmaDeriv := fun _ => Mat 1 [[Cx 1 0]];
     MfMui := fun _ => Mat 1 [[Cx 1 0]];
     MeSigma := fun m => Mat 1 [[of_real (nth 0 (model_or0 m) 0%float)]];
     MeSigmaDeriv := fun _ u v _ => [cmul (head_or0 u) (head_or0 v)];
     Fields_compute := Ok;
     max_keeps_later := fun x _ => get_sign x |}.

Definition cfg_unsolvable : Config :=
  config_unsolvable (survey_of [1%float; 2%float] [rx "real"] 2).

(** The fields of [cfg2] for [m1] and the simulation after computing them. *)
Definition F2 : Fields :=
  match fst (fields Simulation3DPrimarySecondary cfg2 (Some m1) st0) with
  | Ok F => F
  | Raise _ => ∅
  end.
Definition st2 : state :=
  snd (fields Simulation3DPrimarySecondary cfg2 (Some m1) st0).

(** An estimator whose output is the vector [d], whatever the operator. *)
Definition est_const (d : list float)
    : (list float -> M (list float)) -> nat -> nat -> M (list float) :=
  fun _ _ _ => ret d.

End Cases.

(** ** Binary doubles of magnitude at most one

    The vocabulary of the bound on the quotients of [getJtJdiag], over the
    mantissa and exponent of the IEEE specification of the division. *)

(** The magnitude [m * 2^e] is below [my * 2^ey], read off canonical
    mantissas. *)
Definition mag_lt (m : positive) (e : Z) (my : positive) (ey : Z) : Prop :=
  (e < ey)%Z \/ (e = ey /\ (m < my)%positive).

(** 1.0 and -1.0. *)
Definition SFone (s : bool) : spec_float :=
  S754_finite s 4503599627370496 (-52).

(** A zero or a finite double of sign [s] and magnitude at most one. *)
Definition unit_bounded (s : bool) (r : spec_float) : Prop :=
  r = S754_zero s \/
  exists m e, r = S754_finite s m e /\
              ((e < -52)%Z \/ (e = (-52)%Z /\ m = 4503599627370496%positive)).

(** * Properties *)

Section Frame.

Variable R : state -> state -> Prop.
Hypothesis R_refl : forall s, R s s.
Hypothesis R_trans : forall a b c, R a b -> R b c -> R a c.

Lemma frame_ret {A} (a : A) : frame R (ret a).
Proof using R_refl. intros st; apply R_refl. Qed.

Lemma frame_raise {A} (e : exn) : frame R (@raise A e).
Proof using R_refl. intros st; apply R_refl. Qed.

Lemma frame_lift {A} (r : result A) : frame R (lift r).
Proof using R_refl. intros st; apply R_refl. Qed.

Lemma frame_get_model : frame R get_model.
Proof using R_refl. intros st; apply R_refl. Qed.

Lemma frame_get_Ainv i : frame R (get_Ainv i).
Proof using R_refl. intros st; unfold get_Ainv; destruct (Ainv st); apply R_refl. Qed.

Lemma frame_bind {A B} (m : M A) (k : A -> M B) :
  frame R m -> (forall a, frame R (k a)) -> frame R (bind m k).
Proof using R_trans.
  intros Hm Hk st. unfold bind.
  specialize (Hm st). destruct (m st) as [[a|e] st1]; simpl in *.
  - eapply R_trans; [exact Hm | apply Hk].
  - exact Hm.
Qed.

Lemma frame_try_except_pass (body : M unit) :
  frame R body -> frame R (try_except_pass body).
Proof.
  intros Hb st. unfold try_except_pass.
  specialize (Hb st). destruct (body st) as [r st1]; exact Hb.
Qed.

(** One step of a frame R proof: peel a bind, a branch or a read. *)
Ltac frame_step :=
  first
    [ apply frame_ret | apply frame_raise | apply frame_lift
    | apply frame_get_model | apply frame_get_Ainv
    | apply frame_bind; [ | intros ? ]
    | match goal with
      | |- frame R (match ?x with _ => _ end) => destruct x
      | |- frame R (if ?b then _ else _) => destruct b
      end ].

Lemma frame_Ainv_mul i x : frame R (Ainv_mul i x).
Proof using R_refl R_trans. unfold Ainv_mul; repeat frame_step. Qed.

Lemma frame_getADeriv V cfg freq u v adjoint :
  frame R (getADeriv V cfg freq u v adjoint).
Proof using R_refl R_trans.
  destruct V; simpl;
    unfold Sim1D.getADeriv, Sim1D.MfSigmaDeriv, Sim3D.getADeriv;
    repeat frame_step.
Qed.

Lemma frame_getRHSDeriv V cfg freq v adjoint :
  frame R (getRHSDeriv V cfg freq v adjoint).
Proof using R_refl R_trans.
  destruct V; simpl; unfold Sim1D.getRHSDeriv, Sim3D.getRHSDeriv;
    repeat frame_step.
Qed.

Lemma frame_getA1D cfg freq : frame R (Sim1D.getA cfg freq).
Proof using R_refl R_trans.
  unfold Sim1D.getA, Sim1D.MfSigma; repeat frame_step.
Qed.

Lemma frame_getA3D cfg freq : frame R (Sim3D.getA cfg freq).
Proof using R_refl R_trans. unfold Sim3D.getA; repeat frame_step. Qed.

Lemma frame_getRHS1D cfg freq : frame R (Sim1D.getRHS cfg freq).
Proof using R_refl R_trans. unfold Sim1D.getRHS; repeat frame_step. Qed.

Lemma frame_getRHS3D cfg freq : frame R (Sim3D.getRHS cfg freq).
Proof using R_refl R_trans. unfold Sim3D.getRHS; repeat frame_step. Qed.

Lemma frame_Jvec_source V cfg f v nF freq src :
  frame R (Jvec_source V cfg f v nF freq src).
Proof using R_refl R_trans.
  unfold Jvec_source, Jvec_du_dm_v.
  repeat first [ apply frame_getADeriv | apply frame_getRHSDeriv
               | apply frame_Ainv_mul | frame_step ].
Qed.

Lemma frame_Jvec_sources V cfg f v nF freq srcs :
  forall Jv, frame R (Jvec_sources V cfg f v nF freq Jv srcs).
Proof using R_refl R_trans.
  induction srcs as [|src rest IH]; intros Jv; simpl.
  - apply frame_ret.
  - apply frame_bind; [apply frame_Jvec_source | intros new; apply IH].
Qed.

Lemma frame_Jvec_frequencies V cfg f v freqs :
  forall nF Jv, frame R (Jvec_frequencies V cfg f v nF Jv freqs).
Proof using R_refl R_trans.
  induction freqs as [|freq rest IH]; intros nF Jv; simpl.
  - apply frame_ret.
  - apply frame_bind; [apply frame_Jvec_sources | intros Jv'; apply IH].
Qed.

Lemma frame_Jtvec_source V cfg f v nF freq Jtv src :
  frame R (Jtvec_source V cfg f v nF freq Jtv src).
Proof using R_refl R_trans.
  unfold Jtvec_source, Jtvec_dA_duIT.
  repeat first [ apply frame_getADeriv | apply frame_getRHSDeriv
               | apply frame_Ainv_mul | frame_step ].
Qed.

Lemma frame_Jtvec_sources V cfg f v nF freq srcs :
  forall Jtv, frame R (Jtvec_sources V cfg f v nF freq Jtv srcs).
Proof using R_refl R_trans.
  induction srcs as [|src rest IH]; intros Jtv; simpl.
  - apply frame_ret.
  - apply frame_bind; [apply frame_Jtvec_source | intros Jtv'; apply IH].
Qed.

Lemma frame_Jtvec_frequencies V cfg f v freqs :
  forall nF Jtv, frame R (Jtvec_frequencies V cfg f v nF Jtv freqs).
Proof using R_refl R_trans.
  induction freqs as [|freq rest IH]; intros nF Jtv; simpl.
  - apply frame_ret.
  - apply frame_bind; [apply frame_Jtvec_sources | intros Jtv'; apply IH].
Qed.

End Frame.

Lemma same_model_refl s : same_model s s.
Proof. reflexivity. Qed.

Lemma same_model_trans a b c : same_model a b -> same_model b c -> same_model a c.
Proof. unfold same_model; congruence. Qed.

Lemma readonly_run {A} (c : M A) st r st1 :
  readonly c -> c st = (r, st1) -> st1 = st.
Proof. intros Hc E. specialize (Hc st). rewrite E in Hc. simpl in Hc. congruence. Qed.

Lemma readonly_bind {A B} (m : M A) (k : A -> M B) :
  readonly m -> (forall a, readonly (k a)) -> readonly (bind m k).
Proof. apply frame_bind. intros; congruence. Qed.

Lemma bind_Ok_inv {A B} (m : M A) (k : A -> M B) st b st' :
  bind m k st = (Ok b, st') ->
  exists a st1, m st = (Ok a, st1) /\ k a st1 = (Ok b, st').
Proof.
  unfold bind. destruct (m st) as [[a|e] st1]; intros E.
  - exists a, st1; split; [reflexivity | exact E].
  - discriminate E.
Qed.

Lemma lift_Ok_inv {A} (r : result A) st a st' :
  lift r st = (Ok a, st') -> r = Ok a /\ st' = st.
Proof. unfold lift; intros E; inversion E; subst; split; reflexivity. Qed.

Lemma call_Solver_run cfg A st :
  call_Solver cfg A st = (Solver cfg A, add_event (Factorize A) st).
Proof. reflexivity. Qed.

Lemma store_Ainv_Ok_inv i F st st' :
  store_Ainv i F st = (Ok tt, st') ->
  exists l, Ainv st = Some l /\ i < length l /\
    st' = {| model := model st; Ainv := Some (<[i := Some F]> l);
             events := events st |}.
Proof.
  unfold store_Ainv. destruct (Ainv st) as [l|]; [|discriminate].
  destruct (decide (i < length l)) as [Hi|Hi]; [|discriminate].
  intros E; inversion E; subst. exists l; repeat split; assumption.
Qed.

(** The system matrix depends on the simulation object through its model
    only. *)
Lemma getA3D_model cfg freq st st' :
  model st = model st' ->
  fst (Sim3D.getA cfg freq st) = fst (Sim3D.getA cfg freq st').
Proof.
  intros Hm. unfold Sim3D.getA, bind, get_model, lift. rewrite Hm. reflexivity.
Qed.

(** *** The forward pass of the 3-D formulation fills the cache *)

Lemma fields_loop3D_inv cfg :
  forall freqs F nf st Fout st',
    Sim3D.fields_loop cfg F nf freqs st = (Ok Fout, st') ->
    model st' = model st /\
    factorizations st' = factorizations st + length freqs /\
    forall l, Ainv st = Some l ->
      exists l', Ainv st' = Some l' /\ length l' = length l /\
        (forall i, i < nf -> l' !! i = l !! i) /\
        (forall j freq, freqs !! j = Some freq ->
           exists A Fz, fst (Sim3D.getA cfg freq st) = Ok A /\
                        Solver cfg A = Ok Fz /\
                        l' !! (nf + j) = Some (Some Fz)).
Proof.
  induction freqs as [|freq rest IH]; intros F nf st Fout st' E; simpl in E.
  - inversion E; subst. split; [reflexivity|]. split; [simpl; lia|].
    intros l Hl. exists l. split; [assumption|]. split; [reflexivity|].
    split; [reflexivity|].
    intros j fr Hj. rewrite lookup_nil in Hj. discriminate.
  - apply bind_Ok_inv in E as (A & s1 & EA & E).
    pose proof (readonly_run _ _ _ _ (frame_getA3D eq (@eq_refl _) (@eq_trans _) cfg freq) EA).
    subst s1.
    apply bind_Ok_inv in E as (rhs & s1 & Erhs & E).
    pose proof (readonly_run _ _ _ _ (frame_getRHS3D eq (@eq_refl _) (@eq_trans _) cfg freq) Erhs).
    subst s1.
    apply bind_Ok_inv in E as (Anew & s1 & ES & E).
    rewrite call_Solver_run in ES. inversion ES as [[HS Hs1]]. clear ES.
    apply bind_Ok_inv in E as ([] & s2 & Est & E).
    apply store_Ainv_Ok_inv in Est as (l0 & Hl0 & Hnf & Hs2).
    apply bind_Ok_inv in E as (e_s & s3 & Ee & E).
    pose proof (readonly_run _ _ _ _ (frame_Ainv_mul eq (@eq_refl _) (@eq_trans _) nf rhs) Ee).
    subst s3.
    apply bind_Ok_inv in E as (Src & s3 & E3 & E). apply lift_Ok_inv in E3 as [_ ->].
    apply bind_Ok_inv in E as (px & s3 & E3 & E). apply lift_Ok_inv in E3 as [_ ->].
    apply bind_Ok_inv in E as (py & s3 & E3 & E). apply lift_Ok_inv in E3 as [_ ->].
    apply IH in E as (Hm & Hcount & Hcache).
    assert (Hm2 : model s2 = model st) by (subst s2 s1; reflexivity).
    split; [congruence|]. split.
    + rewrite Hcount. subst s2 s1. unfold factorizations; simpl. lia.
    + intros l Hl.
      assert (l0 = l) by (subst s1; simpl in Hl0; congruence). subst l0.
      destruct (Hcache (<[nf := Some Anew]> l)) as (l' & Hl' & Hlen & Hlow & Hhigh).
      { subst s2; reflexivity. }
      exists l'. split; [assumption|]. split.
      { rewrite Hlen. apply length_insert. }
      split.
      * intros i Hi. rewrite Hlow by lia. apply list_lookup_insert_ne. lia.
      * intros [|j] fr Hj; simpl in Hj.
        -- inversion Hj; subst fr. exists A, Anew.
           split; [rewrite EA; reflexivity|]. split; [assumption|].
           replace (nf + 0) with nf by lia.
           rewrite Hlow by lia. apply list_lookup_insert_eq. assumption.
        -- destruct (Hhigh j fr Hj) as (A' & Fz & HA' & HFz & Hslot).
           exists A', Fz. split.
           { rewrite <- HA'. apply getA3D_model. congruence. }
           split; [assumption|].
           replace (nf + S j) with (S nf + j) by lia. assumption.
Qed.

Lemma same_core_refl s : same_core s s.
Proof. repeat split. Qed.

Lemma same_core_trans a b c : same_core a b -> same_core b c -> same_core a c.
Proof. unfold same_core; intros (?&?&?) (?&?&?); repeat split; congruence. Qed.

Lemma frame_call_clean i : frame same_core (call_clean i).
Proof.
  unfold call_clean.
  apply frame_bind; [apply same_core_trans | apply frame_get_Ainv, same_core_refl |].
  intros [F|]; [|apply frame_raise, same_core_refl].
  apply frame_bind; [apply same_core_trans | apply frame_lift, same_core_refl |].
  intros _ st. repeat split.
Qed.

Lemma frame_clean_loop slots : frame same_core (Sim3D.clean_loop slots).
Proof.
  induction slots as [|i rest IH]; simpl.
  - apply frame_ret, same_core_refl.
  - apply frame_bind; [apply same_core_trans | apply frame_call_clean | intros _; exact IH].
Qed.

Lemma frame_release_held cfg : frame same_core (Sim3D.release_held cfg).
Proof.
  unfold Sim3D.release_held.
  apply frame_bind; [apply same_core_trans | apply frame_get_Ainv, same_core_refl |].
  intros [F|]; [apply frame_clean_loop | apply frame_ret, same_core_refl].
Qed.

Lemma same_core_model s s' : same_core s s' -> same_model s s'.
Proof. intros (H & _); exact H. Qed.

(** *** [fields] leaves the model it was given in place, whatever happens *)

Ltac model_step :=
  first
    [ apply frame_getA1D | apply frame_getA3D | apply frame_getRHS1D
    | apply frame_getRHS3D | apply frame_Ainv_mul | apply frame_lift
    | apply frame_ret | apply frame_raise ];
  first [ exact same_model_refl | exact same_model_trans ].

Ltac model_bind :=
  match goal with
  | |- _ (bind _ _) => apply frame_bind; [exact same_model_trans | | intros ?]
  end.

Lemma keeps_model_call_Solver cfg A : keeps_model (call_Solver cfg A).
Proof. intros st; reflexivity. Qed.

Lemma keeps_model_store_Ainv i F : keeps_model (store_Ainv i F).
Proof.
  intros st. unfold store_Ainv. destruct (Ainv st) as [l|]; [|reflexivity].
  destruct (decide (i < length l)); reflexivity.
Qed.

Lemma keeps_model_fields_loop1D cfg freqs :
  forall F, keeps_model (Sim1D.fields_loop cfg F freqs).
Proof.
  induction freqs as [|freq rest IH]; intros F; simpl.
  - apply frame_ret, same_model_refl.
  - repeat model_bind; try model_step;
      [apply keeps_model_call_Solver | apply IH].
Qed.

Lemma keeps_model_fields_loop3D cfg freqs :
  forall F nf, keeps_model (Sim3D.fields_loop cfg F nf freqs).
Proof.
  induction freqs as [|freq rest IH]; intros F nf; simpl.
  - apply frame_ret, same_model_refl.
  - repeat model_bind; try model_step;
      [apply keeps_model_call_Solver | apply keeps_model_store_Ainv | apply IH].
Qed.

Lemma fields_sets_model V cfg m st :
  model (snd (fields V cfg (Some m) st)) = Some m.
Proof.
  destruct V; simpl.
  - unfold Sim1D.fields, bind, set_model.
    match goal with |- context [Sim1D.fields_loop ?c ?F ?l ?s] =>
      pose proof (keeps_model_fields_loop1D c l F s) as H;
      destruct (Sim1D.fields_loop c F l s) as [[a|e] s1] end; exact H.
  - unfold Sim3D.fields, bind, set_model, try_except_pass, set_Ainv.
    match goal with |- context [Sim3D.release_held ?c ?s] =>
      pose proof (same_core_model _ _ (frame_release_held c s)) as H1;
      destruct (Sim3D.release_held c s) as [r1 s1] end.
    match goal with |- context [Sim3D.fields_loop ?c ?F ?n ?l ?s] =>
      pose proof (keeps_model_fields_loop3D c l F n s) as H;
      destruct (Sim3D.fields_loop c F n l s) as [[a|e] s2] end;
      unfold same_model in *; simpl in *; congruence.
Qed.

Lemma fields3D_cache cfg m st F st' :
  Sim3D.fields cfg (Some m) st = (Ok F, st') ->
  model st' = Some m /\
  factorizations st' = factorizations st + num_frequencies (survey cfg) /\
  exists l, Ainv st' = Some l /\ length l = num_frequencies (survey cfg) /\
    forall nF freq, frequencies (survey cfg) !! nF = Some freq ->
      exists A Fz, fst (Sim3D.getA cfg freq st') = Ok A /\
                   Solver cfg A = Ok Fz /\
                   l !! nF = Some (Some Fz).
Proof.
  intros E.
  pose proof (fields_sets_model Simulation3DPrimarySecondary cfg m st) as Hmodel.
  simpl in Hmodel. rewrite E in Hmodel. simpl in Hmodel.
  unfold Sim3D.fields in E.
  apply bind_Ok_inv in E as ([] & s1 & E1 & E).
  apply bind_Ok_inv in E as ([] & s2 & E2 & E).
  apply bind_Ok_inv in E as ([] & s3 & E3 & E).
  assert (Hcore : same_core s1 s2).
  { unfold try_except_pass in E2.
    pose proof (frame_release_held cfg s1) as H.
    destruct (Sim3D.release_held cfg s1) as [r s]. inversion E2; subst. exact H. }
  destruct Hcore as (_ & _ & Hf12).
  assert (Hf01 : factorizations s1 = factorizations st).
  { unfold set_model in E1. inversion E1; subst. reflexivity. }
  assert (Hs3 : Ainv s3 = Some (replicate (num_frequencies (survey cfg)) None)
                /\ factorizations s3 = factorizations s2).
  { unfold set_Ainv in E3. inversion E3; subst. split; reflexivity. }
  destruct Hs3 as (HA3 & Hf23).
  apply fields_loop3D_inv in E as (Hm & Hcount & Hcache).
  split; [assumption|]. split.
  { rewrite Hcount. unfold num_frequencies. lia. }
  destruct (Hcache _ HA3) as (l' & Hl' & Hlen & _ & Hslots).
  exists l'. split; [assumption|]. split.
  { rewrite Hlen. apply length_replicate. }
  intros nF freq Hfreq.
  destruct (Hslots nF freq Hfreq) as (A & Fz & HA & HFz & Hslot).
  exists A, Fz. split; [|split; assumption].
  rewrite <- HA. apply getA3D_model. exact Hm.
Qed.

Lemma fields_loop1D_count cfg :
  forall freqs F st Fout st',
    Sim1D.fields_loop cfg F freqs st = (Ok Fout, st') ->
    factorizations st' = factorizations st + length freqs /\ Ainv st' = Ainv st.
Proof.
  induction freqs as [|freq rest IH]; intros F st Fout st' E; simpl in E.
  - inversion E; subst. split; [simpl; lia | reflexivity].
  - apply bind_Ok_inv in E as (A & s1 & EA & E).
    pose proof (readonly_run _ _ _ _ (frame_getA1D eq (@eq_refl _) (@eq_trans _) cfg freq) EA).
    subst s1.
    apply bind_Ok_inv in E as (rhs & s1 & Erhs & E).
    pose proof (readonly_run _ _ _ _ (frame_getRHS1D eq (@eq_refl _) (@eq_trans _) cfg freq) Erhs).
    subst s1.
    apply bind_Ok_inv in E as (Anew & s1 & ES & E).
    rewrite call_Solver_run in ES. inversion ES as [[HS Hs1]]. clear ES.
    apply bind_Ok_inv in E as (e_s & s2 & E2 & E). apply lift_Ok_inv in E2 as [_ ->].
    apply bind_Ok_inv in E as (Src & s2 & E2 & E). apply lift_Ok_inv in E2 as [_ ->].
    apply IH in E as (Hcount & HA).
    subst s1. split.
    + rewrite Hcount. unfold factorizations; simpl. lia.
    + rewrite HA. reflexivity.
Qed.

(** A successful forward pass requests one factorization per frequency. *)
Lemma fields_count V cfg m st F st' :
  fields V cfg (Some m) st = (Ok F, st') ->
  factorizations st' = factorizations st + num_frequencies (survey cfg).
Proof.
  destruct V; simpl; intros E.
  - unfold Sim1D.fields in E.
    apply bind_Ok_inv in E as ([] & s1 & E1 & E).
    unfold set_model in E1. inversion E1; subst.
    apply fields_loop1D_count in E as (Hc & _). exact Hc.
  - apply fields3D_cache in E as (_ & Hc & _). exact Hc.
Qed.

(** With the fields supplied, [Jvec] and [Jtvec] only set the model. *)
Lemma Jvec_given_fields_state V cfg m v F st :
  snd (Jvec V cfg m v (Some F) st)
  = {| model := Some m; Ainv := Ainv st; events := events st |}.
Proof.
  unfold Jvec.
  set (s1 := {| model := Some m; Ainv := Ainv st; events := events st |}).
  change (bind (ret F) ?k st) with (k F st).
  cbv beta.
  change (bind (set_model m) ?k st) with (k tt s1).
  cbv beta.
  assert (Hro : readonly (
     let* m_dim := lift (Jvec_m_dim cfg) in
     let* Jv := Jvec_frequencies V cfg F v 0 [] (frequencies (survey cfg)) in
     lift (concatenate Jv))).
  { apply readonly_bind; [apply frame_lift; reflexivity | intros ?].
    apply readonly_bind; [apply frame_Jvec_frequencies; congruence | intros ?].
    apply frame_lift; reflexivity. }
  symmetry; exact (Hro s1).
Qed.

Lemma Jtvec_given_fields_state V cfg m v F st :
  snd (Jtvec V cfg m v (Some F) st)
  = {| model := Some m; Ainv := Ainv st; events := events st |}.
Proof.
  unfold Jtvec.
  set (s1 := {| model := Some m; Ainv := Ainv st; events := events st |}).
  change (bind (ret F) ?k st) with (k F st).
  cbv beta.
  change (bind (set_model m) ?k st) with (k tt s1).
  cbv beta.
  symmetry.
  exact (frame_Jtvec_frequencies eq (@eq_refl _) (@eq_trans _) V cfg F _ _ 0 _ s1).
Qed.

Lemma is_ok_inv {A} (p : result A * state) :
  is_ok (fst p) = true -> exists a, p = (Ok a, snd p).
Proof. destruct p as [[a|e] s]; simpl; [eauto | discriminate]. Qed.

Lemma Jvec_without_fields V cfg m v st :
  Jvec V cfg m v None st =
    match fields V cfg (Some m) st with
    | (Ok F, st1) =>
        match computed V cfg F with
        | Ok F' => Jvec V cfg m v (Some F') st1
        | Raise e => (Raise e, st1)
        end
    | (Raise e, st1) => (Raise e, st1)
    end.
Proof.
  unfold Jvec at 1. unfold bind at 1. unfold bind at 1.
  destruct (fields V cfg (Some m) st) as [[F|e] st1]; [|reflexivity].
  unfold lift. destruct (computed V cfg F); reflexivity.
Qed.

Lemma Jtvec_without_fields V cfg m w st :
  Jtvec V cfg m w None st =
    match fields V cfg (Some m) st with
    | (Ok F, st1) =>
        match computed V cfg F with
        | Ok F' => Jtvec V cfg m w (Some F') st1
        | Raise e => (Raise e, st1)
        end
    | (Raise e, st1) => (Raise e, st1)
    end.
Proof.
  unfold Jtvec at 1. unfold bind at 1. unfold bind at 1.
  destruct (fields V cfg (Some m) st) as [[F|e] st1]; [|reflexivity].
  unfold lift. destruct (computed V cfg F); reflexivity.
Qed.

(** ** Claims *)

(** C7: called without a fields object, [Jvec] and [Jtvec] first run the
    forward solve [fields(m)], take its computed result and continue exactly
    as if that had been passed in (a failure of the forward solve being the
    failure of the call); in every case, failing or not, the simulation's
    model is [m] afterwards. *)
Theorem Jvec_Jtvec_solve_forward_first V cfg m v w st :
  Jvec V cfg m v None st =
    match fields V cfg (Some m) st with
    | (Ok F, st1) =>
        match computed V cfg F with
        | Ok F' => Jvec V cfg m v (Some F') st1
        | Raise e => (Raise e, st1)
        end
    | (Raise e, st1) => (Raise e, st1)
    end
  /\ Jtvec V cfg m w None st =
    match fields V cfg (Some m) st with
    | (Ok F, st1) =>
        match computed V cfg F with
        | Ok F' => Jtvec V cfg m w (Some F') st1
        | Raise e => (Raise e, st1)
        end
    | (Raise e, st1) => (Raise e, st1)
    end
  /\ model (snd (Jvec V cfg m v None st)) = Some m
  /\ model (snd (Jtvec V cfg m w None st)) = Some m.
Proof.
  split; [apply Jvec_without_fields|].
  split; [apply Jtvec_without_fields|].
  rewrite Jvec_without_fields, Jtvec_without_fields.
  pose proof (fields_sets_model V cfg m st) as Hm.
  destruct (fields V cfg (Some m) st) as [[F|e] st1]; simpl in Hm.
  - destruct (computed V cfg F) as [F'|e].
    + rewrite Jvec_given_fields_state, Jtvec_given_fields_state.
      split; reflexivity.
    + split; exact Hm.
  - split; exact Hm.
Qed.

Lemma Ainv_mul_cached nF x st l Fz :
  Ainv st = Some l -> l !! nF = Some (Some Fz) ->
  Ainv_mul nF x st = (fsolve Fz x, st).
Proof.
  intros Hl Hs. unfold Ainv_mul, bind, get_Ainv, index. rewrite Hl, Hs.
  reflexivity.
Qed.

Lemma Jvec_du_dm_v_cached nF dA_dm_v dRHS_dm_v st l Fz :
  Ainv st = Some l -> l !! nF = Some (Some Fz) ->
  Jvec_du_dm_v nF dA_dm_v dRHS_dm_v st
  = (rbind (nd_add (nd_neg dA_dm_v) dRHS_dm_v) (fsolve Fz), st).
Proof.
  intros Hl Hs. unfold Jvec_du_dm_v, bind, lift.
  destruct (nd_add (nd_neg dA_dm_v) dRHS_dm_v) as [rhs|e]; simpl; [|reflexivity].
  apply (Ainv_mul_cached _ _ _ _ _ Hl Hs).
Qed.

(** *** The blocks of [Jv] *)

Lemma Jvec_source_state V cfg f v nF freq src st :
  snd (Jvec_source V cfg f v nF freq src st) = st.
Proof.
  symmetry.
  exact (frame_Jvec_source eq (@eq_refl _) (@eq_trans _) V cfg f v nF freq src st).
Qed.

Lemma Jvec_source_blocks V cfg f v nF freq src st new st' :
  Jvec_source V cfg f v nF freq src st = (Ok new, st') ->
  length new = length (receiver_list src).
Proof.
  unfold Jvec_source. intros E.
  apply bind_Ok_inv in E as (dA & s1 & _ & E).
  apply bind_Ok_inv in E as (dRHS & s2 & _ & E).
  apply bind_Ok_inv in E as (du & s3 & _ & E).
  inversion E; subst. unfold Jvec_receivers. apply length_map.
Qed.

Lemma Jvec_sources_layout V cfg f v nF freq srcs :
  forall Jv st Jv' st',
    Jvec_sources V cfg f v nF freq Jv srcs st = (Ok Jv', st') ->
    st' = st
    /\ Jv' = Jv ++ concat (map (source_blocks V cfg f v st nF freq) srcs)
    /\ length (concat (map (source_blocks V cfg f v st nF freq) srcs))
       = list_sum (map (fun src => length (receiver_list src)) srcs)
    /\ forall src, In src srcs ->
         is_ok (fst (Jvec_source V cfg f v nF freq src st)) = true.
Proof.
  induction srcs as [|src rest IH]; intros Jv st Jv' st' E; simpl in E.
  - inversion E; subst. simpl. rewrite app_nil_r.
    repeat split. intros ? [].
  - apply bind_Ok_inv in E as (new1 & s1 & E1 & E).
    pose proof (Jvec_source_state V cfg f v nF freq src st) as Hs.
    rewrite E1 in Hs. simpl in Hs. subst s1.
    apply IH in E as (-> & -> & Hlen & Hok).
    assert (Hb : source_blocks V cfg f v st nF freq src = new1)
      by (unfold source_blocks; rewrite E1; reflexivity).
    split; [reflexivity|]. split; [|split].
    + simpl. rewrite Hb, app_assoc. reflexivity.
    + simpl. rewrite length_app, Hb, Hlen.
      rewrite (Jvec_source_blocks _ _ _ _ _ _ _ _ _ _ E1). reflexivity.
    + intros s0 [<-|Hin]; [rewrite E1; reflexivity | apply Hok, Hin].
Qed.

Lemma Jvec_frequencies_layout V cfg f v freqs :
  forall nF Jv st Jv' st',
    Jvec_frequencies V cfg f v nF Jv freqs st = (Ok Jv', st') ->
    st' = st
    /\ Jv' = Jv ++ concat (imap (fun i => frequency_blocks V cfg f v st (nF + i))
                             freqs)
    /\ length (concat (imap (fun i => frequency_blocks V cfg f v st (nF + i))
                            freqs))
       = list_sum (map (receivers_at cfg) freqs)
    /\ forall i freq src,
         freqs !! i = Some freq ->
         In src (get_sources_by_frequency (survey cfg) freq) ->
         is_ok (fst (Jvec_source V cfg f v (nF + i) freq src st)) = true.
Proof.
  induction freqs as [|freq rest IH]; intros nF Jv st Jv' st' E; simpl in E.
  - inversion E; subst. simpl. rewrite app_nil_r.
    repeat split. intros i ? ? H. rewrite lookup_nil in H. discriminate.
  - apply bind_Ok_inv in E as (Jv1 & s1 & E1 & E).
    apply Jvec_sources_layout in E1 as (-> & -> & Hlen1 & Hok1).
    apply IH in E as (-> & -> & Hlen2 & Hok2).
    assert (Himap : imap (fun i => frequency_blocks V cfg f v st (nF + i))
                      (freq :: rest)
                    = frequency_blocks V cfg f v st nF freq
                      :: imap (fun i => frequency_blocks V cfg f v st (S nF + i))
                           rest).
    { rewrite imap_cons, Nat.add_0_r. f_equal. apply imap_ext.
      intros i x _. simpl. f_equal. lia. }
    rewrite Himap. split; [reflexivity|]. split; [|split].
    + rewrite concat_cons. unfold frequency_blocks at 2.
      rewrite app_assoc. reflexivity.
    + rewrite concat_cons, length_app, Hlen2. unfold frequency_blocks at 1.
      rewrite Hlen1. reflexivity.
    + intros [|i] fr src Hl Hin; simpl in Hl.
      * inversion Hl; subst. rewrite Nat.add_0_r. apply Hok1, Hin.
      * replace (nF + S i) with (S nF + i) by lia. apply (Hok2 i fr src Hl Hin).
Qed.

Lemma Jvec_layout V cfg m v f st Jv :
  fst (Jvec V cfg m v f st) = Ok Jv ->
  Jv = concat (survey_blocks V cfg (fields_used V cfg m f st) v
                 (state_used V cfg m f st))
  /\ length (survey_blocks V cfg (fields_used V cfg m f st) v
               (state_used V cfg m f st)) = receivers_total cfg
  /\ 0 < receivers_total cfg
  /\ forall nF freq src,
       frequencies (survey cfg) !! nF = Some freq ->
       In src (get_sources_by_frequency (survey cfg) freq) ->
       is_ok (fst (Jvec_source V cfg (fields_used V cfg m f st) v nF freq src
                     (state_used V cfg m f st))) = true.
Proof.
  assert (Hgiven : forall F s, fst (Jvec V cfg m v (Some F) s) = Ok Jv ->
    Jv = concat (survey_blocks V cfg F v (with_model m s))
    /\ length (survey_blocks V cfg F v (with_model m s)) = receivers_total cfg
    /\ 0 < receivers_total cfg
    /\ forall nF freq src,
         frequencies (survey cfg) !! nF = Some freq ->
         In src (get_sources_by_frequency (survey cfg) freq) ->
         is_ok (fst (Jvec_source V cfg F v nF freq src (with_model m s))) = true).
  { intros F s H. unfold Jvec in H.
    change (bind (ret F) ?k s) with (k F s) in H. cbv beta in H.
    change (bind (set_model m) ?k s) with (k tt (with_model m s)) in H.
    cbv beta in H.
    match type of H with fst (?c ?s0) = _ =>
      destruct (c s0) as [[r|e] s'] eqn:E end; simpl in H; [|discriminate].
    inversion H; subst r.
    apply bind_Ok_inv in E as (m_dim & s1 & E0 & E).
    apply lift_Ok_inv in E0 as [_ ->].
    apply bind_Ok_inv in E as (blocks & s2 & E2 & E).
    apply lift_Ok_inv in E as [E _].
    apply Jvec_frequencies_layout in E2 as (_ & Hb & Hlen & Hok).
    assert (Hsb : survey_blocks V cfg F v (with_model m s) = blocks)
      by (rewrite Hb; reflexivity).
    assert (Hn : length blocks = receivers_total cfg)
      by (rewrite Hb; exact Hlen).
    rewrite Hsb. clear Hb Hlen Hsb.
    unfold concatenate in E.
    destruct blocks as [|b bs]; [discriminate|]. inversion E; subst Jv.
    split; [reflexivity|]. split; [exact Hn|].
    split; [rewrite <- Hn; simpl; lia | exact Hok]. }
  intros H. destruct f as [F|]; [apply (Hgiven F st H)|].
  rewrite Jvec_without_fields in H.
  unfold fields_used, state_used.
  destruct (fields V cfg (Some m) st) as [[F|e] st1]; [|discriminate].
  simpl. destruct (computed V cfg F) as [F'|e]; [|discriminate].
  apply (Hgiven F' st1 H).
Qed.

(** C3, as the code has it: the field perturbation is the solve of the
    factorization held in slot [nF] of the cache applied to
    [-dA_dm_v + dRHS_dm_v], and the step of a source is that solve between
    the two derivatives and the receivers; [Jvec] runs the step of every
    source of the frequency at position [nF] of the survey with slot [nF],
    in the order of the survey.  After a successful 3-D [fields(m)] that slot
    holds the factorization of [A] at the [nF]-th frequency; with the fields
    passed in, [Jvec] requests no factorization and leaves the cache as it
    is; with the fields left out, a successful [Jvec] has run [fields(m)]
    again and requested one more factorization per frequency. *)
Theorem Jvec_solves_with_cached_slot V cfg m v st :
  (forall l nF Fz f freq src,
      Ainv st = Some l -> l !! nF = Some (Some Fz) ->
      (forall dA_dm_v dRHS_dm_v,
          Jvec_du_dm_v nF dA_dm_v dRHS_dm_v st
          = (rbind (nd_add (nd_neg dA_dm_v) dRHS_dm_v) (fsolve Fz), st))
      /\ Jvec_source V cfg f v nF freq src st
         = (let* dA_dm_v := getADeriv V cfg freq (fields_of_src f (src_id src))
                              (upcast v) false in
            let* dRHS_dm_v := getRHSDeriv V cfg freq (upcast v) false in
            let* du_dm_v :=
              lift (rbind (nd_add (nd_neg dA_dm_v) dRHS_dm_v) (fsolve Fz)) in
            ret (Jvec_receivers cfg src f du_dm_v)) st)
  /\ (forall f Jv, fst (Jvec V cfg m v f st) = Ok Jv ->
        Jv = concat (survey_blocks V cfg (fields_used V cfg m f st) v
                       (state_used V cfg m f st))
        /\ forall nF freq src,
             frequencies (survey cfg) !! nF = Some freq ->
             In src (get_sources_by_frequency (survey cfg) freq) ->
             is_ok (fst (Jvec_source V cfg (fields_used V cfg m f st) v nF freq
                           src (state_used V cfg m f st))) = true)
  /\ (is_ok (fst (Sim3D.fields cfg (Some m) st)) = true ->
      forall nF freq, frequencies (survey cfg) !! nF = Some freq ->
        let st' := snd (Sim3D.fields cfg (Some m) st) in
        exists A Fz l, fst (Sim3D.getA cfg freq st') = Ok A /\
                       Solver cfg A = Ok Fz /\
                       Ainv st' = Some l /\ l !! nF = Some (Some Fz))
  /\ (forall F,
        factorizations (snd (Jvec V cfg m v (Some F) st)) = factorizations st
        /\ Ainv (snd (Jvec V cfg m v (Some F) st)) = Ainv st)
  /\ (is_ok (fst (Jvec V cfg m v None st)) = true ->
      factorizations (snd (Jvec V cfg m v None st))
      = factorizations st + num_frequencies (survey cfg)).
Proof.
  split; [|split; [|split; [|split]]].
  - intros l nF Fz f freq src Hl Hs.
    assert (Hdu : forall dA dRHS,
              Jvec_du_dm_v nF dA dRHS st
              = (rbind (nd_add (nd_neg dA) dRHS) (fsolve Fz), st))
      by (intros; apply (Jvec_du_dm_v_cached _ _ _ _ _ _ Hl Hs)).
    split; [exact Hdu|].
    unfold Jvec_source, bind.
    pose proof (frame_getADeriv eq (@eq_refl _) (@eq_trans _) V cfg freq
                  (fields_of_src f (src_id src)) (upcast v) false st) as H1.
    destruct (getADeriv V cfg freq (fields_of_src f (src_id src)) (upcast v)
                false st) as [[dA|e] s1]; [|reflexivity].
    simpl in H1. subst s1.
    pose proof (frame_getRHSDeriv eq (@eq_refl _) (@eq_trans _) V cfg freq
                  (upcast v) false st) as H2.
    destruct (getRHSDeriv V cfg freq (upcast v) false st) as [[dRHS|e] s2];
      [|reflexivity].
    simpl in H2. subst s2.
    rewrite Hdu. reflexivity.
  - intros f Jv H. destruct (Jvec_layout V cfg m v f st Jv H) as (HJ & _ & _ & Hok).
    split; assumption.
  - intros Hok nF freq Hfreq st'.
    apply is_ok_inv in Hok as (F & E). fold st' in E.
    apply fields3D_cache in E as (_ & _ & l & Hl & _ & Hslots).
    destruct (Hslots nF freq Hfreq) as (A & Fz & HA & HFz & Hslot).
    exists A, Fz, l. repeat split; assumption.
  - intros F. rewrite Jvec_given_fields_state. split; reflexivity.
  - intros Hok. rewrite Jvec_without_fields in *.
    destruct (fields V cfg (Some m) st) as [[F|e] st1] eqn:E; [|discriminate].
    destruct (computed V cfg F) as [F'|e]; [|discriminate].
    rewrite Jvec_given_fields_state. apply fields_count in E. exact E.
Qed.

(** C3, as stated, fails: after [fields(m)] has factorized the single system
    matrix of the sample survey, [Jvec(m, v)] factorizes that same matrix a
    second time. *)
Lemma Jvec_factorizes_again :
  exists A,
    events Scenario.stA = [Factorize A]
    /\ factorizations Scenario.stA = 1
    /\ filter (fun e => is_factorize e = true)
         (events (snd (Jvec Scenario.V3 Scenario.cfgA Scenario.m1 Scenario.v1
                         None Scenario.stA)))
       = [Factorize A; Factorize A]
    /\ factorizations (snd (Jvec Scenario.V3 Scenario.cfgA Scenario.m1 Scenario.v1
                              None Scenario.stA)) = 2.
Proof.
  eexists. split; [vm_compute; reflexivity|].
  split; [vm_compute; reflexivity|].
  split; vm_compute; reflexivity.
Qed.

Lemma Jvec_solves_with_cached_slot_witness :
  Jvec_source Scenario.V3 Scenario.cfgA ∅ Scenario.v1 0 1%float
    (Sample.src [Sample.rx "real"]) Scenario.stA
  = (let* dA_dm_v := getADeriv Scenario.V3 Scenario.cfgA 1%float
                       (fields_of_src ∅ 0) (upcast Scenario.v1) false in
     let* dRHS_dm_v := getRHSDeriv Scenario.V3 Scenario.cfgA 1%float
                         (upcast Scenario.v1) false in
     let* du_dm_v :=
       lift (rbind (nd_add (nd_neg dA_dm_v) dRHS_dm_v) (fsolve Scenario.FzA)) in
     ret (Jvec_receivers Scenario.cfgA (Sample.src [Sample.rx "real"]) ∅ du_dm_v))
    Scenario.stA.
Proof.
  refine (proj2 (proj1 (Jvec_solves_with_cached_slot Scenario.V3 Scenario.cfgA
                          Scenario.m1 Scenario.v1 Scenario.stA)
                   Scenario.slotsA 0 Scenario.FzA ∅ 1%float
                   (Sample.src [Sample.rx "real"]) _ _)).
  - vm_compute. reflexivity.
  - vm_compute. reflexivity.
Defined.

(** C2, as the code has it: the summed adjoint contribution [PTv] is mapped
    to the adjoint field sensitivity by the cached handle of slot [nF] itself,
    the very solve [Jvec] uses, flattened column by column; that vector is
    what the adjoint derivatives of [A] and of the right-hand side receive. *)
Theorem Jtvec_applies_cached_factorization_itself
    V cfg f v nF freq Jtv src st l Fz PTv :
  Ainv st = Some l -> l !! nF = Some (Some Fz) ->
  Jtvec_receivers cfg src f v (PTv_init cfg) (receiver_list src) = Ok PTv ->
  Jtvec_dA_duIT nF PTv st = (rbind (fsolve Fz PTv) (fun x => Ok (mkvc x)), st)
  /\ (forall rhs, Ainv_mul nF rhs st = (fsolve Fz rhs, st))
  /\ forall x, fsolve Fz PTv = Ok x ->
       Jtvec_source V cfg f v nF freq Jtv src st
       = (let* dA_dmT := getADeriv V cfg freq (fields_of_src f (src_id src))
                           (mkvc x) true in
          let* dRHS_dmT := getRHSDeriv V cfg freq (mkvc x) true in
          let* du_dmT := lift (let+ s := nd_add (nd_neg dA_dmT) dRHS_dmT in
                               as_vector s) in
          lift (radd Jtv (real_part du_dmT))) st.
Proof.
  intros Hl Hs HP.
  assert (Hmul : forall rhs, Ainv_mul nF rhs st = (fsolve Fz rhs, st))
    by (intros rhs; apply (Ainv_mul_cached _ _ _ _ _ Hl Hs)).
  split; [|split; [exact Hmul|]].
  - unfold Jtvec_dA_duIT, bind. rewrite Hmul.
    destruct (fsolve Fz PTv); reflexivity.
  - intros x Hx. unfold Jtvec_source. rewrite HP.
    unfold Jtvec_dA_duIT.
    unfold bind at 1. unfold lift at 1.
    unfold bind at 1. unfold bind at 1. rewrite Hmul, Hx.
    reflexivity.
Qed.

(** C2, as stated, fails: on the sample survey the vector the code obtains
    from the cached handle differs from the one the conjugate-transposed
    system gives (their imaginary parts have opposite signs). *)
Lemma Jtvec_solve_is_not_conjugate_transposed :
  fst (Jtvec_dA_duIT 0 Scenario.PTv1 Scenario.stA)
  <> fst (Jtvec_dA_duIT_adjoint Scenario.cfgA 0 Scenario.PTv1 Scenario.stA).
Proof.
  intros H. apply (f_equal Scenario.im_negative) in H.
  vm_compute in H. discriminate H.
Qed.

Lemma Jtvec_applies_cached_factorization_itself_witness :
  Jtvec_dA_duIT 0 Scenario.PTv1 Scenario.stA
  = (rbind (fsolve Scenario.FzA Scenario.PTv1) (fun x => Ok (mkvc x)),
     Scenario.stA).
Proof.
  apply (Jtvec_applies_cached_factorization_itself Scenario.V3 Scenario.cfgA
           ∅ (fun _ _ => [1%float]) 0 1%float [0%float]
           (Sample.src [Sample.rx "real"]) Scenario.stA Scenario.slotsA
           Scenario.FzA Scenario.PTv1).
  - vm_compute. reflexivity.
  - vm_compute. reflexivity.
  - vm_compute. reflexivity.
Defined.

(** C4, as the code has it: in forward mode [getADeriv] returns [iw(f)] times
    the product of the inner-product derivative with [v] (1-D: one vector;
    3-D: one column per polarization); in adjoint mode it returns [iw(f)],
    not conjugated, times the product of the plain transpose with [v] (3-D:
    the sum of the adjoint-mode products of the two halves of [v]). *)
Theorem getADeriv_forward_and_transpose cfg freq u v st :
  (forall u_src dM,
      solution u "e_1dSolution" = Ok u_src ->
      fst (Sim1D.MfSigmaDeriv cfg u_src st) = Ok dM ->
      Sim1D.getADeriv cfg freq u v false st
      = (rbind (matvec dM v) (fun x => Ok (Arr1 (vscale (iw freq) x))), st)
      /\ Sim1D.getADeriv cfg freq u v true st
      = (rbind (matvec (transpose dM) v)
               (fun x => Ok (Arr1 (vscale (iw freq) x))), st))
  /\ (forall u0 u1,
      solution u "e_pxSolution" = Ok u0 ->
      solution u "e_pySolution" = Ok u1 ->
      Sim3D.getADeriv cfg freq u v false st
      = (rbind (hstack (mkvc2 (MeSigmaDeriv cfg (model st) u0 v false))
                       (mkvc2 (MeSigmaDeriv cfg (model st) u1 v false)))
               (fun D => Ok (Arr2 (mscale (iw freq) D))), st)
      /\ Sim3D.getADeriv cfg freq u v true st
      = (rbind (vadd (MeSigmaDeriv cfg (model st) u0
                        (take (nE (mesh cfg)) v) true)
                     (MeSigmaDeriv cfg (model st) u1
                        (drop (nE (mesh cfg)) v) true))
               (fun x => Ok (Arr1 (vscale (iw freq) x))), st)).
Proof.
  split.
  - intros u_src dM Hu HdM.
    assert (E : Sim1D.MfSigmaDeriv cfg u_src st = (Ok dM, st)).
    { pose proof (frame_bind eq (@eq_trans _) get_model
                    (fun m => lift (matmul (getFaceInnerProductDeriv (mesh cfg)
                                              (sigma cfg m) u_src)
                                           (sigmaDeriv cfg m)))
                    (frame_get_model eq (@eq_refl _))
                    (fun m => frame_lift eq (@eq_refl _) _) st) as Hro.
      change (st = snd (Sim1D.MfSigmaDeriv cfg u_src st)) in Hro.
      destruct (Sim1D.MfSigmaDeriv cfg u_src st) as [r s]; simpl in *.
      congruence. }
    unfold Sim1D.getADeriv.
    split; unfold bind at 1; unfold lift at 1; rewrite Hu;
      unfold bind at 1; rewrite E; unfold bind, lift, ret;
      match goal with |- context [matvec ?M v] => destruct (matvec M v) end;
      reflexivity.
  - intros u0 u1 H0 H1. unfold Sim3D.getADeriv, bind, get_model, lift, ret.
    rewrite H0, H1. split.
    + match goal with |- context [hstack ?a ?b] => destruct (hstack a b) end;
        reflexivity.
    + match goal with |- context [vadd ?a ?b] => destruct (vadd a b) end;
        reflexivity.
Qed.

(** C4, as stated, fails in adjoint mode: on the 1-D sample mesh the code
    returns [+i pi] where the conjugate-transpose action of the operator
    [iw dM/dm] is [-i pi]. *)
Lemma getADeriv_adjoint_is_not_conjugated :
  rbind (fst (Sim1D.getADeriv Scenario.cfg1 1%float Scenario.u1 Scenario.w1
                true Scenario.st1)) (fun a => Ok (mkvc a))
  <> rbind (fst (Sim1D.MfSigmaDeriv Scenario.cfg1 [Cx 1 0; Cx 1 0] Scenario.st1))
           (fun dM => conjugate_transpose_action
                        (getADeriv_operator 1%float dM) Scenario.w1).
Proof.
  intros H. apply (f_equal Scenario.im_negative) in H.
  vm_compute in H. discriminate H.
Qed.

Lemma getADeriv_forward_and_transpose_witness :
  Sim1D.getADeriv Scenario.cfg1 1%float Scenario.u1 Scenario.w1 true Scenario.st1
  = (rbind (matvec (transpose (Mat 2 [[Cx 0.5 0; Cx 0.5 0]])) Scenario.w1)
           (fun x => Ok (Arr1 (vscale (iw 1%float) x))), Scenario.st1).
Proof.
  refine (proj2 (proj1 (getADeriv_forward_and_transpose Scenario.cfg1 1%float
                          Scenario.u1 Scenario.w1 Scenario.st1)
                   [Cx 1 0; Cx 1 0] (Mat 2 [[Cx 0.5 0; Cx 0.5 0]]) _ _)).
  - vm_compute. reflexivity.
  - vm_compute. reflexivity.
Defined.

(** *** The receiver loop of [Jtvec] *)

Lemma Jtvec_receivers_bad_tag cfg src f v rx :
  component rx <> "real"%string -> component rx <> "imag"%string ->
  forall rxs PTv, In rx rxs ->
    is_ok (Jtvec_receivers cfg src f v PTv rxs) = false.
Proof.
  intros Hr Hi. induction rxs as [|rx' rest IH]; intros PTv Hin; [destruct Hin|].
  simpl. destruct Hin as [->|Hin].
  - unfold Jtvec_receiver.
    destruct (String.eqb_spec (component rx) "real"); [contradiction|].
    destruct (String.eqb_spec (component rx) "imag"); [contradiction|].
    reflexivity.
  - destruct (Jtvec_receiver cfg src f v PTv rx') as [P|e]; simpl;
      [apply IH; assumption | reflexivity].
Qed.

Lemma bind_not_ok_l {A B} (m : M A) (k : A -> M B) st :
  is_ok (fst (m st)) = false -> is_ok (fst (bind m k st)) = false.
Proof. unfold bind. destruct (m st) as [[a|e] s]; simpl; [discriminate | reflexivity]. Qed.

Lemma bind_not_ok_r {A B} (m : M A) (k : A -> M B) st :
  (forall a s, is_ok (fst (k a s)) = false) -> is_ok (fst (bind m k st)) = false.
Proof. intros H. unfold bind. destruct (m st) as [[a|e] s]; simpl; [apply H | reflexivity]. Qed.

Lemma Jtvec_sources_bad_tag V cfg f v nF freq src rx :
  component rx <> "real"%string -> component rx <> "imag"%string ->
  In rx (receiver_list src) ->
  forall srcs Jtv st, In src srcs ->
    is_ok (fst (Jtvec_sources V cfg f v nF freq Jtv srcs st)) = false.
Proof.
  intros Hr Hi Hrx. induction srcs as [|src' rest IH]; intros Jtv st Hin;
    [destruct Hin|].
  simpl. destruct Hin as [->|Hin].
  - apply bind_not_ok_l. unfold Jtvec_source. apply bind_not_ok_l.
    unfold lift; simpl.
    apply (Jtvec_receivers_bad_tag cfg src f v rx Hr Hi); assumption.
  - apply bind_not_ok_r. intros Jtv' s. apply IH; assumption.
Qed.

Lemma Jtvec_frequencies_bad_tag V cfg f v freq src rx :
  component rx <> "real"%string -> component rx <> "imag"%string ->
  In rx (receiver_list src) ->
  In src (get_sources_by_frequency (survey cfg) freq) ->
  forall freqs nF Jtv st, In freq freqs ->
    is_ok (fst (Jtvec_frequencies V cfg f v nF Jtv freqs st)) = false.
Proof.
  intros Hr Hi Hrx Hsrc. induction freqs as [|freq' rest IH]; intros nF Jtv st Hin;
    [destruct Hin|].
  simpl. destruct Hin as [->|Hin].
  - apply bind_not_ok_l.
    apply (Jtvec_sources_bad_tag V cfg f v nF freq src rx Hr Hi Hrx); assumption.
  - apply bind_not_ok_r. intros Jtv' s. apply IH; assumption.
Qed.

(** C5: in the receiver loop of [Jtvec] the adjoint contribution of a "real"
    receiver is added to the accumulator as it is, that of an "imag" receiver
    is negated first, any other tag raises the exception "Must be real or
    imag"; and a survey with such a receiver on a source of one of its
    frequencies makes every call of [Jtvec] end in an exception. *)
Theorem Jtvec_component_sign_convention V cfg src f (d : Data) PTv rx :
  (component rx = "real"%string ->
    Jtvec_receiver cfg src f d PTv rx
    = nd_add PTv (evalDeriv_adjoint rx (src_id src) (mesh cfg) f (d src rx)))
  /\ (component rx = "imag"%string ->
    Jtvec_receiver cfg src f d PTv rx
    = nd_add PTv (nd_neg (evalDeriv_adjoint rx (src_id src) (mesh cfg) f (d src rx))))
  /\ (component rx <> "real"%string -> component rx <> "imag"%string ->
    Jtvec_receiver cfg src f d PTv rx = Raise (Exception "Must be real or imag")
    /\ forall freq m w f0 st,
        In freq (frequencies (survey cfg)) ->
        In src (get_sources_by_frequency (survey cfg) freq) ->
        In rx (receiver_list src) ->
        is_ok (fst (Jtvec V cfg m w f0 st)) = false).
Proof.
  split; [|split].
  - intros H. unfold Jtvec_receiver. rewrite H. reflexivity.
  - intros H. unfold Jtvec_receiver. rewrite H. reflexivity.
  - intros Hr Hi. split.
    + unfold Jtvec_receiver.
      destruct (String.eqb_spec (component rx) "real"); [contradiction|].
      destruct (String.eqb_spec (component rx) "imag"); [contradiction|].
      reflexivity.
    + intros freq m w f0 st Hfreq Hsrc Hrx.
      unfold Jtvec. apply bind_not_ok_r. intros F s.
      apply bind_not_ok_r. intros _ s'.
      apply (Jtvec_frequencies_bad_tag V cfg F _ freq src rx Hr Hi Hrx Hsrc);
        assumption.
Qed.

Lemma Jtvec_component_sign_convention_witness :
  is_ok (fst (Jtvec Scenario.V3 Scenario.cfgTag Scenario.m1
                (RawVector [1%float; 1%float]) None Sample.st0)) = false.
Proof.
  refine (proj2 (proj2 (proj2 (Jtvec_component_sign_convention
            Scenario.V3 Scenario.cfgTag
            (Sample.src [Sample.rx "real"; Sample.rx "abs"]) ∅ (fun _ _ => [])
            Scenario.PTv1 (Sample.rx "abs"))) _ _)
            1%float Scenario.m1 (RawVector [1%float; 1%float]) None Sample.st0
            _ _ _).
  - simpl. discriminate.
  - simpl. discriminate.
  - simpl. left. reflexivity.
  - simpl. left. reflexivity.
  - simpl. right. left. reflexivity.
Defined.

(** *** The release of the held factorizations at the head of [fields] *)

Lemma call_clean_ok i st l Fz :
  Ainv st = Some l -> l !! i = Some (Some Fz) -> clean Fz = Ok tt ->
  call_clean i st = (Ok tt, add_event (Release i) st).
Proof.
  intros Hl Hs Hc. unfold call_clean, bind, get_Ainv, index, lift.
  rewrite Hl, Hs, Hc. reflexivity.
Qed.

Lemma call_clean_fails i st l Fz e :
  Ainv st = Some l -> l !! i = Some (Some Fz) -> clean Fz = Raise e ->
  call_clean i st = (Raise e, st).
Proof.
  intros Hl Hs Hc. unfold call_clean, bind, get_Ainv, index, lift.
  rewrite Hl, Hs, Hc. reflexivity.
Qed.

Lemma clean_loop_stops pre :
  forall st l,
    Ainv st = Some l ->
    (forall j, In j pre -> exists Fj, l !! j = Some (Some Fj) /\ clean Fj = Ok tt) ->
    (forall i post Fz e,
        l !! i = Some (Some Fz) -> clean Fz = Raise e ->
        Sim3D.clean_loop (pre ++ i :: post) st
        = (Raise e, {| model := model st; Ainv := Ainv st;
                       events := rev (map Release pre) ++ events st |}))
    /\ Sim3D.clean_loop pre st
       = (Ok tt, {| model := model st; Ainv := Ainv st;
                    events := rev (map Release pre) ++ events st |}).
Proof.
  induction pre as [|j pre IH]; intros st l Hl Hpre.
  - split.
    + intros i post Fz e Hs Hc. simpl. unfold bind.
      rewrite (call_clean_fails i st l Fz e Hl Hs Hc). destruct st; reflexivity.
    + simpl. destruct st; reflexivity.
  - destruct (Hpre j (or_introl eq_refl)) as (Fj & Hj & Hcj).
    destruct (IH (add_event (Release j) st) l Hl
                (fun k Hk => Hpre k (or_intror Hk))) as (IHfail & IHok).
    assert (Hev : forall evs, rev (map Release pre) ++ Release j :: evs
                         = rev (map Release (j :: pre)) ++ evs).
    { intros evs. simpl. rewrite <- app_assoc. reflexivity. }
    split.
    + intros i post Fz e Hs Hc. simpl. unfold bind.
      rewrite (call_clean_ok j st l Fj Hl Hj Hcj).
      rewrite (IHfail i post Fz e Hs Hc). simpl. rewrite Hev. reflexivity.
    + simpl. unfold bind. rewrite (call_clean_ok j st l Fj Hl Hj Hcj).
      rewrite IHok. simpl. rewrite Hev. reflexivity.
Qed.

(** C6, as the code has it: [fields] runs the release of the held
    factorizations inside a [try] whose handler discards every exception, and
    then carries on with the reset of the cache and the frequency loop from
    whatever state the release reached.  The release itself goes through the
    slots in order: when every slot holds a factorization whose [clean()]
    succeeds, all of them are released before the slots are reassigned; it
    stops at the first [clean()] that raises, leaving the later slots
    unreleased. *)
Theorem fields_discards_release_failures cfg m st :
  let st1 := snd ((match m with Some m' => set_model m' | None => ret tt end) st) in
  let N := num_frequencies (survey cfg) in
  Sim3D.fields cfg m st
  = (set_Ainv (replicate N None) ;;
     Sim3D.fields_loop cfg ∅ 0 (frequencies (survey cfg)))
      (snd (Sim3D.release_held cfg st1))
  /\ (forall l, Ainv st = Some l -> 0 < N ->
       (forall i, i < N -> exists Fz, l !! i = Some (Some Fz) /\ clean Fz = Ok tt) ->
       Sim3D.release_held cfg st1
       = (Ok tt, {| model := model st1; Ainv := Ainv st;
                    events := rev (map Release (seq 0 N)) ++ events st |}))
  /\ (forall l i Fz e, Ainv st = Some l -> i < N ->
       (forall j, j < i -> exists Fj, l !! j = Some (Some Fj) /\ clean Fj = Ok tt) ->
       l !! i = Some (Some Fz) -> clean Fz = Raise e ->
       Sim3D.release_held cfg st1
       = (Raise e, {| model := model st1; Ainv := Ainv st;
                      events := rev (map Release (seq 0 i)) ++ events st |})).
Proof.
  intros st1 N.
  assert (HA1 : Ainv st1 = Ainv st) by (subst st1; destruct m; reflexivity).
  assert (HE1 : events st1 = events st) by (subst st1; destruct m; reflexivity).
  split; [|split].
  - unfold Sim3D.fields. unfold bind at 1.
    assert (E : (match m with Some m' => set_model m' | None => ret tt end) st
                = (Ok tt, st1)) by (subst st1; destruct m; reflexivity).
    rewrite E. unfold bind at 1. unfold try_except_pass.
    destruct (Sim3D.release_held cfg st1) as [r s]. reflexivity.
  - intros l Hl HN Hall.
    destruct (Hall 0 HN) as (F0 & H0 & _).
    unfold Sim3D.release_held, bind, get_Ainv, index. rewrite HA1, Hl, H0.
    destruct (clean_loop_stops (seq 0 N) st1 l) as (_ & Hok).
    { congruence. }
    { intros j Hj. apply in_seq in Hj. apply Hall. lia. }
    fold N. rewrite Hok, HA1, HE1, Hl. reflexivity.
  - intros l i Fz e Hl Hi Hpre Hs Hc.
    assert (H0 : exists F0, l !! 0 = Some (Some F0)).
    { destruct i as [|i']; [eauto|].
      destruct (Hpre 0) as (F0 & H0 & _); [lia | eauto]. }
    destruct H0 as (F0 & H0).
    unfold Sim3D.release_held, bind, get_Ainv, index. rewrite HA1, Hl, H0.
    fold N.
    replace (seq 0 N) with (seq 0 i ++ i :: seq (S i) (N - S i)).
    + destruct (clean_loop_stops (seq 0 i) st1 l) as (Hfail & _).
      { congruence. }
      { intros j Hj. apply in_seq in Hj. apply Hpre. lia. }
      rewrite (Hfail i _ Fz e Hs Hc), HA1, HE1, Hl. reflexivity.
    + symmetry. transitivity (seq 0 (i + S (N - S i))).
      * f_equal. lia.
      * rewrite seq_app. reflexivity.
Qed.

(** C6, as stated, fails.  With a backend whose handles cannot be released,
    [fields(m2)] after [fields(m1)] returns normally instead of passing the
    failure on, and overwrites both slots (two more factorizations) without
    any release having been carried out.  And with two held factorizations
    of which only the first cannot be released, [fields] again returns
    normally and the second, releasable, factorization is overwritten
    without having been released. *)
Lemma fields_hides_release_failure :
  (factorizations Scenario.stFail = 2
   /\ is_ok (fst (Sim3D.fields Scenario.cfgFail (Some Scenario.m2) Scenario.stFail))
      = true
   /\ factorizations
        (snd (Sim3D.fields Scenario.cfgFail (Some Scenario.m2) Scenario.stFail)) = 4
   /\ filter (fun e => is_factorize e = false)
        (events (snd (Sim3D.fields Scenario.cfgFail (Some Scenario.m2)
                        Scenario.stFail)))
      = [])
  /\ is_ok (fst (Sim3D.fields Scenario.cfgB (Some Scenario.m1) Scenario.stB)) = true
  /\ factorizations (snd (Sim3D.fields Scenario.cfgB (Some Scenario.m1) Scenario.stB)) = 2
  /\ filter (fun e => is_factorize e = false)
       (events (snd (Sim3D.fields Scenario.cfgB (Some Scenario.m1) Scenario.stB)))
     = [].
Proof. repeat split; vm_compute; reflexivity. Qed.

Lemma fields_discards_release_failures_witness :
  Sim3D.release_held Scenario.cfgB
    (snd (set_model Scenario.m1 Scenario.stB_ok))
  = (Ok tt, {| model := Some Scenario.m1; Ainv := Ainv Scenario.stB_ok;
               events := [Release 1; Release 0] |}).
Proof.
  refine (proj1 (proj2 (fields_discards_release_failures Scenario.cfgB
                          (Some Scenario.m1) Scenario.stB_ok))
            [Some (Scenario.handle (Ok tt)); Some (Scenario.handle (Ok tt))] _ _ _).
  - reflexivity.
  - vm_compute. lia.
  - intros [|[|i]] Hi.
    + exists (Scenario.handle (Ok tt)). split; reflexivity.
    + exists (Scenario.handle (Ok tt)). split; reflexivity.
    + vm_compute in Hi. lia.
Defined.

(** C8, as the code has it: with [k = None] the estimator is handed the
    integer part of a tenth of the number of data, which is at least 1
    exactly when the survey has ten data or more, and 0 below that. *)
Theorem getJtJdiag_default_probes V cfg diagEst m st :
  getJtJdiag V cfg diagEst m None st
  = getJtJdiag V cfg diagEst m (Some (nD (survey cfg) / 10)%nat) st
  /\ 10 * default_k cfg <= nD (survey cfg) < 10 * default_k cfg + 10
  /\ (1 <= default_k cfg <-> 10 <= nD (survey cfg))
  /\ (default_k cfg = 0 <-> nD (survey cfg) < 10).
Proof.
  split; [reflexivity|].
  unfold default_k.
  pose proof (Nat.div_mod_eq (nD (survey cfg)) 10) as Hd.
  pose proof (Nat.mod_upper_bound (nD (survey cfg)) 10) as Hm.
  repeat split; lia.
Qed.

(** C8, as stated, fails: for the sample survey of five data the default
    number of probe vectors is 0, not at least 1. *)
Lemma default_probes_can_be_zero :
  nD (survey Scenario.cfg1) = 5
  /\ default_k Scenario.cfg1 = 0
  /\ ~ (1 <= default_k Scenario.cfg1).
Proof.
  split; [reflexivity|]. split; [reflexivity|]. vm_compute. lia.
Qed.

(** *** Dividing a double by itself

    From the IEEE specification of the primitive division: the quotient of a
    finite non-zero double by itself is exactly 1.0. *)

Lemma SFdiv_core_self m e :
  SFdiv_core_binary prec emax (Zpos m) e (Zpos m) e
  = ((2 ^ 53)%Z, (-53)%Z, SpecFloat.loc_Exact).
Proof.
  unfold SFdiv_core_binary.
  replace (Zdigits2 (Z.pos m) + e - (Zdigits2 (Z.pos m) + e))%Z with 0%Z by lia.
  replace (e - e)%Z with 0%Z by lia.
  change (Z.min (fexp prec emax 0) 0) with (-53)%Z.
  change (0 - -53)%Z with 53%Z.
  cbv iota beta.
  rewrite Z.shiftl_mul_pow2 by lia.
  pose proof (Z.div_mul (2 ^ 53) (Z.pos m) ltac:(lia)) as Hq.
  pose proof (Z.mod_mul (2 ^ 53) (Z.pos m) ltac:(lia)) as Hr.
  rewrite (Z.mul_comm (2 ^ 53)) in Hq, Hr.
  unfold Z.div, Z.modulo in Hq, Hr.
  destruct (Z.div_eucl (Z.pos m * 2 ^ 53) (Z.pos m)) as [q r].
  simpl in Hq, Hr. subst q r.
  unfold new_location. destruct (Z.even (Z.pos m)); reflexivity.
Qed.

Lemma div_self_finite x :
  is_finite x = true -> is_zero x = false -> (x / x)%float = 1%float.
Proof.
  intros Hf Hz. apply Prim2SF_inj. rewrite div_spec.
  unfold is_finite, is_nan, is_infinity, is_zero in *.
  rewrite !FloatAxioms.eqb_spec in *. rewrite abs_spec in Hf.
  destruct (Prim2SF x) as [s|s| |s m e] eqn:E.
  - exfalso. destruct s; vm_compute in Hz; discriminate.
  - exfalso. destruct s; vm_compute in Hf; discriminate.
  - exfalso. vm_compute in Hf; discriminate.
  - unfold SF64div, SFdiv. rewrite SFdiv_core_self.
    destruct s; vm_compute; reflexivity.
Qed.

(** *** Dividing a double by a positive double at least as large

    Again from the IEEE specification of the division: the quotient of the
    mantissas is below a power of two that the two roundings cannot pass. *)

Section DivisionBound.
Local Open Scope Z_scope.

(** **** Binary digits *)

Lemma digits2_pos_bounds m :
  2 ^ (Zpos (digits2_pos m) - 1) <= Zpos m < 2 ^ Zpos (digits2_pos m).
Proof.
  induction m as [p IH|p IH|]; simpl digits2_pos.
  - rewrite Pos2Z.inj_succ. change (Z.pos p~1) with (2 * Z.pos p + 1).
    replace (Z.succ (Z.pos (digits2_pos p)) - 1)
      with (Z.succ (Z.pos (digits2_pos p) - 1)) by lia.
    rewrite !Z.pow_succ_r by lia.
    destruct IH as [IH1 IH2]. revert IH1 IH2.
    generalize (2 ^ (Z.pos (digits2_pos p) - 1)) (2 ^ Z.pos (digits2_pos p)). lia.
  - rewrite Pos2Z.inj_succ. change (Z.pos p~0) with (2 * Z.pos p).
    replace (Z.succ (Z.pos (digits2_pos p)) - 1)
      with (Z.succ (Z.pos (digits2_pos p) - 1)) by lia.
    rewrite !Z.pow_succ_r by lia.
    destruct IH as [IH1 IH2]. revert IH1 IH2.
    generalize (2 ^ (Z.pos (digits2_pos p) - 1)) (2 ^ Z.pos (digits2_pos p)). lia.
  - simpl. lia.
Qed.

Lemma Zdigits2_le q k :
  0 <= k -> 0 <= q <= 2 ^ k -> Zdigits2 q <= k + 1.
Proof.
  intros Hk [H0 Hq]. destruct q as [|p|p]; simpl; try lia.
  pose proof (digits2_pos_bounds p) as [Hl _].
  assert (Hlt : 2 ^ (Z.pos (digits2_pos p) - 1) < 2 ^ (k + 1)).
  { rewrite (Z.pow_add_r 2 k 1) by lia. lia. }
  apply Z.pow_lt_mono_r_iff in Hlt; lia.
Qed.

(** **** Shifting the mantissa right *)

Lemma shr_1_m mrs : 0 <= shr_m mrs -> shr_m (shr_1 mrs) = shr_m mrs / 2.
Proof.
  destruct mrs as [m r s]. simpl. intros H.
  destruct m as [|[p|p|]|p]; simpl shr_m; try lia.
  - reflexivity.
  - change (Z.pos p~1) with (2 * Z.pos p + 1). apply Z.div_unique with 1; lia.
  - change (Z.pos p~0) with (2 * Z.pos p). apply Z.div_unique with 0; lia.
  - reflexivity.
Qed.

Lemma iter_shr_m p : forall mrs,
  0 <= shr_m mrs ->
  shr_m (SpecFloat.iter_pos shr_1 p mrs) = shr_m mrs / 2 ^ Zpos p.
Proof.
  induction p as [p IH|p IH|]; intros mrs H; simpl SpecFloat.iter_pos.
  - assert (H1 : 0 <= shr_m (shr_1 mrs))
      by (rewrite shr_1_m by exact H; apply Z.div_pos; lia).
    assert (H2 : 0 <= shr_m (SpecFloat.iter_pos shr_1 p (shr_1 mrs)))
      by (rewrite IH by exact H1; apply Z.div_pos; [exact H1 | lia]).
    rewrite IH by exact H2. rewrite IH by exact H1. rewrite shr_1_m by exact H.
    rewrite !Z.div_div by lia. f_equal.
    replace (Z.pos p~1) with (Z.pos p + Z.pos p + 1) by lia.
    rewrite !Z.pow_add_r by lia. change (2 ^ 1) with 2. lia.
  - assert (H2 : 0 <= shr_m (SpecFloat.iter_pos shr_1 p mrs))
      by (rewrite IH by exact H; apply Z.div_pos; [exact H | lia]).
    rewrite IH by exact H2. rewrite IH by exact H.
    rewrite !Z.div_div by lia. f_equal.
    replace (Z.pos p~0) with (Z.pos p + Z.pos p) by lia.
    rewrite !Z.pow_add_r by lia. reflexivity.
  - rewrite shr_1_m by exact H. reflexivity.
Qed.

Lemma shr_record_of_loc_m m l : shr_m (shr_record_of_loc m l) = m.
Proof. destruct l as [|[]]; reflexivity. Qed.

Lemma shr_fexp_bound q e l mrs e1 :
  e <= 0 -> 0 <= q <= 2 ^ (- e) ->
  shr_fexp prec emax q e l = (mrs, e1) ->
  e1 <= 0 /\ 0 <= shr_m mrs <= 2 ^ (- e1) /\
  (q < 2 ^ (- e) -> shr_m mrs < 2 ^ (- e1)).
Proof.
  intros He [H0 Hq] H. unfold shr_fexp, shr in H.
  pose proof (Zdigits2_le q (- e) ltac:(lia) (Logic.conj H0 Hq)) as Hd.
  destruct (fexp prec emax (Zdigits2 q + e) - e) as [|n|n] eqn:En;
    injection H as <- <-; rewrite ?shr_record_of_loc_m; try (split; [lia|split; [lia|tauto]]).
  rewrite iter_shr_m by (rewrite shr_record_of_loc_m; exact H0).
  rewrite shr_record_of_loc_m.
  unfold fexp, SpecFloat.emin, prec, emax in En.
  assert (He1 : e + Z.pos n <= 0) by lia.
  assert (Hp : 2 ^ (- e) = 2 ^ Z.pos n * 2 ^ (- (e + Z.pos n))).
  { rewrite <- Z.pow_add_r by lia. f_equal. lia. }
  assert (Hn : 0 < 2 ^ Z.pos n) by (apply Z.pow_pos_nonneg; lia).
  split; [exact He1|]. split; [split|].
  - apply Z.div_pos; lia.
  - apply Z.div_le_upper_bound; [exact Hn|]. rewrite <- Hp. exact Hq.
  - intros Hlt. apply Z.div_lt_upper_bound; [exact Hn|]. rewrite <- Hp. exact Hlt.
Qed.

Lemma round_nearest_even_bound q l :
  q <= round_nearest_even q l <= q + 1.
Proof.
  destruct l as [|[]]; simpl; try lia. destruct (Z.even q); lia.
Qed.

(** The rounding step on a quotient below one. *)
Lemma binary_round_aux_le_one s q e l :
  e <= 0 -> 0 <= q < 2 ^ (- e) ->
  binary_round_aux prec emax s q e l = S754_zero s \/
  exists m' e', binary_round_aux prec emax s q e l = S754_finite s m' e' /\
                e' <= 0 /\ Zpos m' <= 2 ^ (- e').
Proof.
  intros He [H0 Hq]. unfold binary_round_aux.
  destruct (shr_fexp prec emax q e l) as [mrs1 e1] eqn:E1.
  destruct (shr_fexp_bound _ _ _ _ _ He (Logic.conj H0 (Z.lt_le_incl _ _ Hq)) E1)
    as (He1 & [H1 _] & Hlt). specialize (Hlt Hq).
  pose proof (round_nearest_even_bound (shr_m mrs1) (loc_of_shr_record mrs1)) as Hr.
  destruct (shr_fexp prec emax _ e1 loc_Exact) as [mrs2 e2] eqn:E2.
  assert (Hq2 : 0 <= round_nearest_even (shr_m mrs1) (loc_of_shr_record mrs1)
                  <= 2 ^ (- e1)) by lia.
  destruct (shr_fexp_bound _ _ _ _ _ He1 Hq2 E2) as (He2 & [H2 H2'] & _).
  destruct (shr_m mrs2) as [|m'|m'] eqn:Em; [left; reflexivity| |lia].
  right. exists m', e2.
  replace (e2 <=? emax - prec) with true
    by (symmetry; apply Z.leb_le; unfold emax, prec; lia).
  auto.
Qed.

(** The rounding step keeps the sign of a quotient that is not negative. *)
Lemma binary_round_aux_sign s q e l :
  0 <= q ->
  binary_round_aux prec emax s q e l = S754_zero s \/
  binary_round_aux prec emax s q e l = S754_infinity s \/
  exists m' e', binary_round_aux prec emax s q e l = S754_finite s m' e'.
Proof.
  intros H0. unfold binary_round_aux.
  assert (Hshr : forall q e l mrs e1, 0 <= q ->
            shr_fexp prec emax q e l = (mrs, e1) -> 0 <= shr_m mrs).
  { clear. intros q e l mrs e1 H0 H. unfold shr_fexp, shr in H.
    destruct (fexp prec emax (Zdigits2 q + e) - e);
      injection H as <- <-; rewrite ?shr_record_of_loc_m; try exact H0.
    rewrite iter_shr_m by (rewrite shr_record_of_loc_m; exact H0).
    rewrite shr_record_of_loc_m. apply Z.div_pos; [exact H0|].
    apply Z.pow_pos_nonneg; lia. }
  destruct (shr_fexp prec emax q e l) as [mrs1 e1] eqn:E1.
  pose proof (Hshr _ _ _ _ _ H0 E1) as H1.
  pose proof (round_nearest_even_bound (shr_m mrs1) (loc_of_shr_record mrs1)) as Hr.
  destruct (shr_fexp prec emax _ e1 loc_Exact) as [mrs2 e2] eqn:E2.
  assert (Hq2 : 0 <= round_nearest_even (shr_m mrs1) (loc_of_shr_record mrs1)) by lia.
  pose proof (Hshr _ _ _ _ _ Hq2 E2) as H2.
  destruct (shr_m mrs2) as [|m'|m']; [left; reflexivity| |lia].
  right. destruct (e2 <=? emax - prec); [right; eauto | left; reflexivity].
Qed.

(** **** The quotient of the mantissas *)

Lemma mag_lt_value m e my ey :
  bounded prec emax m e = true -> bounded prec emax my ey = true ->
  mag_lt m e my ey ->
  e <= ey /\ Zpos m < Zpos my * 2 ^ (ey - e).
Proof.
  unfold bounded, canonical_mantissa, fexp, SpecFloat.emin, prec, emax.
  intros Hb Hby H.
  apply andb_prop in Hb as [Hb _]. apply andb_prop in Hby as [Hby _].
  apply Z.eqb_eq in Hb, Hby.
  destruct H as [H|[-> H]].
  - split; [lia|].
    pose proof (digits2_pos_bounds m) as [_ Hm].
    pose proof (digits2_pos_bounds my) as [Hmy _].
    assert (Hd : Z.pos (digits2_pos m) <= 53) by lia.
    assert (Hdy : Z.pos (digits2_pos my) = 53) by lia.
    rewrite Hdy in Hmy. change (2 ^ (53 - 1)) with (2 ^ 52) in Hmy.
    assert (Hm' : Z.pos m < 2 ^ 53).
    { eapply Z.lt_le_trans; [exact Hm|]. apply Z.pow_le_mono_r; lia. }
    assert (Hpow : 2 ^ 1 <= 2 ^ (ey - e)) by (apply Z.pow_le_mono_r; lia).
    change (2 ^ 1) with 2 in Hpow. change (2 ^ 53) with (2 ^ 52 * 2) in Hm'.
    nia.
  - split; [lia|]. rewrite Z.sub_diag. simpl. lia.
Qed.

Lemma SFdiv_core_lt m e my ey :
  bounded prec emax m e = true -> bounded prec emax my ey = true ->
  mag_lt m e my ey ->
  exists q e' l,
    SFdiv_core_binary prec emax (Zpos m) e (Zpos my) ey = (q, e', l) /\
    e' <= 0 /\ 0 <= q < 2 ^ (- e').
Proof.
  intros Hb Hby H.
  destruct (mag_lt_value _ _ _ _ Hb Hby H) as [He Hv].
  unfold SFdiv_core_binary.
  set (e' := Z.min _ (e - ey)).
  assert (He' : e' <= e - ey) by apply Z.le_min_r.
  set (s := e - ey - e').
  assert (Hs : 0 <= s) by (unfold s; lia).
  set (m' := match s with Z.pos _ => Z.shiftl (Z.pos m) s | 0 => Z.pos m | Z.neg _ => 0 end).
  assert (Hm' : m' = Z.pos m * 2 ^ s).
  { unfold m'. destruct s as [|p|p] eqn:Es; [simpl; lia| |lia].
    rewrite Z.shiftl_mul_pow2 by lia. reflexivity. }
  pose proof (Z_div_mod m' (Z.pos my) ltac:(lia)) as Hdm.
  destruct (Z.div_eucl m' (Z.pos my)) as [q r].
  destruct Hdm as [Hdm Hr].
  exists q, e', (new_location (Z.pos my) r). split; [reflexivity|].
  split; [lia|].
  assert (Hps : 0 < 2 ^ s) by (apply Z.pow_pos_nonneg; lia).
  assert (Hp : 2 ^ (- e') = 2 ^ (ey - e) * 2 ^ s).
  { rewrite <- Z.pow_add_r by lia. f_equal. unfold s. lia. }
  rewrite Hp.
  assert (Hlt : m' < Z.pos my * (2 ^ (ey - e) * 2 ^ s)).
  { rewrite Hm', Z.mul_assoc. apply Z.mul_lt_mono_pos_r; assumption. }
  assert (0 <= m') by (rewrite Hm'; lia).
  split; nia.
Qed.

(** **** Division by a larger magnitude *)

Lemma SFdiv_unit s m e my ey sy :
  bounded prec emax m e = true -> bounded prec emax my ey = true ->
  mag_lt m e my ey \/ (m = my /\ e = ey) ->
  valid_binary (SF64div (S754_finite s m e) (S754_finite sy my ey)) = true ->
  unit_bounded (xorb s sy) (SF64div (S754_finite s m e) (S754_finite sy my ey)).
Proof.
  intros Hb Hby [H|[-> ->]] Hv.
  - destruct (SFdiv_core_lt _ _ _ _ Hb Hby H) as (q & e' & l & E & He' & Hq).
    assert (Ediv : SF64div (S754_finite s m e) (S754_finite sy my ey)
                   = binary_round_aux prec emax (xorb s sy) q e' l)
      by (unfold SF64div, SFdiv; rewrite E; reflexivity).
    rewrite Ediv in *.
    destruct (binary_round_aux_le_one (xorb s sy) q e' l He' Hq)
      as [E3|(m' & e3 & E3 & He3 & Hm3)]; rewrite E3 in *; [left; reflexivity|].
    right. exists m', e3. split; [reflexivity|].
    simpl in Hv. unfold bounded, canonical_mantissa, fexp, SpecFloat.emin, prec, emax in Hv.
    apply andb_prop in Hv as [Hc _]. apply Z.eqb_eq in Hc.
    pose proof (digits2_pos_bounds m') as [Hl Hu].
    pose proof (Zdigits2_le (Z.pos m') (- e3) ltac:(lia) ltac:(lia)) as Hd.
    simpl Zdigits2 in Hd.
    destruct (Z.eq_dec e3 (-52)) as [->|Hne]; [right|left; lia].
    split; [reflexivity|].
    assert (Hd53 : Z.pos (digits2_pos m') = 53) by lia.
    rewrite Hd53 in Hl. change (2 ^ (53 - 1)) with 4503599627370496 in Hl.
    change (2 ^ (- -52)) with 4503599627370496 in Hm3. lia.
  - right. exists 4503599627370496%positive, (-52). split; [|right; split; reflexivity].
    unfold SF64div, SFdiv. rewrite SFdiv_core_self.
    destruct (xorb s sy); vm_compute; reflexivity.
Qed.

Lemma unit_bounded_le_one s r : unit_bounded s r -> SFleb r (SFone false) = true.
Proof.
  intros [->|(m & e & -> & H)]; unfold SFleb, SFone, SFcompare.
  - destruct s; reflexivity.
  - destruct s; [reflexivity|].
    destruct H as [H|[-> ->]].
    + apply Z.compare_lt_iff in H. rewrite H. reflexivity.
    + rewrite Z.compare_refl.
      change (Pos.compare_cont Eq ?a ?b) with (Pos.compare a b).
      rewrite Pos.compare_refl. reflexivity.
Qed.

Lemma unit_bounded_ge_minus_one s r : unit_bounded s r -> SFleb (SFone true) r = true.
Proof.
  intros [->|(m & e & -> & H)]; unfold SFleb, SFone, SFcompare.
  - reflexivity.
  - destruct s; [|reflexivity].
    destruct H as [H|[-> ->]].
    + apply Z.compare_gt_iff in H. rewrite H. reflexivity.
    + rewrite Z.compare_refl.
      change (Pos.compare_cont Eq ?a ?b) with (Pos.compare a b).
      rewrite Pos.compare_refl. reflexivity.
Qed.

(** **** The order of doubles *)

Ltac SF_cases :=
  unfold SFleb, SFltb, SFcompare;
  repeat match goal with
  | |- context [Pos.compare_cont Eq ?a ?b] =>
      change (Pos.compare_cont Eq a b) with (Pos.compare a b)
  end;
  repeat match goal with
  | |- context [Z.compare ?a ?b] => destruct (Z.compare_spec a b)
  | |- context [Pos.compare ?a ?b] => destruct (Pos.compare_spec a b)
  end;
  simpl; intros; subst;
  try reflexivity; try discriminate; try lia; try congruence.

Lemma SFleb_trans x y z :
  SFleb x y = true -> SFleb y z = true -> SFleb x z = true.
Proof.
  destruct x as [[]|[]| |[] mx ex], y as [[]|[]| |[] my ey],
    z as [[]|[]| |[] mz ez]; SF_cases.
Qed.

Lemma SFleb_total x y :
  x <> S754_nan -> y <> S754_nan -> SFltb y x = false -> SFleb x y = true.
Proof.
  destruct x as [[]|[]| |[] mx ex], y as [[]|[]| |[] my ey]; SF_cases.
Qed.

Lemma SFltb_leb x y : SFltb x y = true -> SFleb x y = true.
Proof.
  unfold SFltb, SFleb. destruct (SFcompare x y) as [[]|]; congruence.
Qed.

Lemma SFleb_antisym_finite x s m e :
  SFleb x (S754_finite s m e) = true -> SFleb (S754_finite s m e) x = true ->
  x = S754_finite s m e.
Proof.
  destruct s, x as [[]|[]| |[] mx ex]; SF_cases.
Qed.

Lemma SFleb_not_nan_l x y : SFleb x y = true -> x <> S754_nan.
Proof. intros H ->. discriminate. Qed.

Lemma SFleb_not_nan_r x y : SFleb x y = true -> y <> S754_nan.
Proof. intros H ->. destruct x; discriminate. Qed.

Lemma SFleb_refl x : x <> S754_nan -> SFleb x x = true.
Proof. destruct x as [[]|[]| |[] mx ex]; SF_cases. Qed.

Lemma SFleb_mag m e my ey :
  SFleb (S754_finite false m e) (S754_finite false my ey) = true ->
  mag_lt m e my ey \/ (m = my /\ e = ey).
Proof.
  unfold mag_lt, SFleb, SFcompare.
  change (Pos.compare_cont Eq m my) with (Pos.compare m my).
  destruct (Z.compare_spec e ey), (Pos.compare_spec m my);
    intros; try discriminate; auto.
Qed.

Lemma SFleb_mag_neg m e my ey :
  SFleb (S754_finite true my ey) (S754_finite true m e) = true ->
  mag_lt m e my ey \/ (m = my /\ e = ey).
Proof.
  unfold mag_lt, SFleb, SFcompare.
  change (Pos.compare_cont Eq my m) with (Pos.compare my m).
  destruct (Z.compare_spec ey e), (Pos.compare_spec my m);
    simpl; intros; try discriminate; auto.
Qed.

Lemma SFdiv_core_nonneg m e my ey q e' l :
  SFdiv_core_binary prec emax (Zpos m) e (Zpos my) ey = (q, e', l) -> 0 <= q.
Proof.
  unfold SFdiv_core_binary.
  set (s := e - ey - Z.min _ (e - ey)).
  set (m' := match s with Z.pos _ => Z.shiftl (Z.pos m) s | 0 => Z.pos m | Z.neg _ => 0 end).
  assert (Hm' : 0 <= m').
  { unfold m'. destruct s; try lia. apply Z.shiftl_nonneg. lia. }
  pose proof (Z_div_mod m' (Z.pos my) ltac:(lia)) as Hdm.
  destruct (Z.div_eucl m' (Z.pos my)) as [q0 r0].
  destruct Hdm as [Hdm Hr]. intros H. injection H as <- _ _. nia.
Qed.

(** **** Primitive doubles *)

Local Open Scope float_scope.

Lemma Prim2SF_not_nan x : is_nan x = false -> Prim2SF x <> S754_nan.
Proof.
  intros H E. unfold is_nan in H. rewrite FloatAxioms.eqb_spec, E in H. discriminate.
Qed.

Lemma not_nan_Prim2SF x : Prim2SF x <> S754_nan -> is_nan x = false.
Proof.
  intros H. unfold is_nan. rewrite FloatAxioms.eqb_spec.
  destruct (Prim2SF x) as [[]|[]| |[] m e]; try reflexivity; try congruence;
    unfold SFeqb, SFcompare; rewrite Z.compare_refl;
    change (Pos.compare_cont Eq m m) with (Pos.compare m m);
    rewrite Pos.compare_refl; reflexivity.
Qed.

Lemma leb_refl x : is_nan x = false -> (x <=? x) = true.
Proof. intros H. rewrite leb_spec. apply SFleb_refl, Prim2SF_not_nan, H. Qed.

Lemma leb_trans x y z : (x <=? y) = true -> (y <=? z) = true -> (x <=? z) = true.
Proof. rewrite !leb_spec. apply SFleb_trans. Qed.

Lemma leb_total x y :
  is_nan x = false -> is_nan y = false -> (y <? x) = false -> (x <=? y) = true.
Proof.
  intros Hx Hy. rewrite leb_spec, ltb_spec.
  apply SFleb_total; apply Prim2SF_not_nan; assumption.
Qed.

Lemma ltb_leb x y : (x <? y) = true -> (x <=? y) = true.
Proof. rewrite leb_spec, ltb_spec. apply SFltb_leb. Qed.

Lemma leb_not_nan x y : (x <=? y) = true -> is_nan x = false /\ is_nan y = false.
Proof.
  rewrite leb_spec. intros H. split; apply not_nan_Prim2SF.
  - eapply SFleb_not_nan_l, H.
  - eapply SFleb_not_nan_r, H.
Qed.

Lemma Prim2SF_one : Prim2SF 1 = SFone false.
Proof. vm_compute. reflexivity. Qed.

Lemma Prim2SF_minus_one : Prim2SF (-1) = SFone true.
Proof. vm_compute. reflexivity. Qed.

Lemma Prim2SF_zero : Prim2SF 0 = S754_zero false.
Proof. vm_compute. reflexivity. Qed.

Lemma leb_antisym_one x : (x <=? 1) = true -> (1 <=? x) = true -> x = 1.
Proof.
  rewrite !leb_spec, Prim2SF_one. intros H1 H2.
  apply Prim2SF_inj. rewrite Prim2SF_one.
  apply SFleb_antisym_finite; assumption.
Qed.

(** A finite double above zero is a positive binary number. *)
Lemma finite_positive mx :
  is_finite mx = true -> (0 <? mx) = true ->
  exists my ey, Prim2SF mx = S754_finite false my ey
                /\ bounded prec emax my ey = true.
Proof.
  intros Hf Hp. pose proof (Prim2SF_valid mx) as Hv.
  rewrite ltb_spec, Prim2SF_zero in Hp.
  unfold is_finite, is_nan, is_infinity in Hf.
  rewrite !FloatAxioms.eqb_spec, abs_spec in Hf.
  destruct (Prim2SF mx) as [s|s| |s m e].
  - discriminate.
  - exfalso. destruct s; vm_compute in Hf; discriminate.
  - discriminate.
  - destruct s; [discriminate|]. exists m, e. split; [reflexivity | exact Hv].
Qed.

Lemma finite_not_nan x : is_finite x = true -> is_nan x = false.
Proof.
  unfold is_finite. destruct (is_nan x); [discriminate | reflexivity].
Qed.

Lemma positive_not_zero x : (0 <? x) = true -> is_zero x = false.
Proof.
  rewrite ltb_spec, Prim2SF_zero. unfold is_zero.
  rewrite FloatAxioms.eqb_spec.
  destruct (Prim2SF x) as [[]|[]| |[] m e]; try discriminate; reflexivity.
Qed.

(** The quotient by a positive finite double at least as large is at most
    one. *)
Lemma div_le_one x mx :
  is_finite mx = true -> (0 <? mx) = true -> (x <=? mx) = true ->
  (x / mx <=? 1) = true.
Proof.
  intros Hf Hp Hle.
  destruct (finite_positive mx Hf Hp) as (my & ey & Emx & Hby).
  pose proof (Prim2SF_valid x) as Hvx. pose proof (Prim2SF_valid (x / mx)) as Hvr.
  rewrite leb_spec in Hle |- *. rewrite div_spec in Hvr |- *.
  rewrite Emx in *. rewrite Prim2SF_one.
  destruct (Prim2SF x) as [s|s| |s m e].
  - destruct s; reflexivity.
  - destruct s; [reflexivity | discriminate].
  - discriminate.
  - destruct s.
    + unfold SF64div, SFdiv.
      destruct (SFdiv_core_binary prec emax (Z.pos m) e (Z.pos my) ey)
        as [[q e'] l] eqn:E.
      pose proof (SFdiv_core_nonneg _ _ _ _ _ _ _ E) as Hq.
      cbn [xorb].
      destruct (binary_round_aux_sign true q e' l Hq)
        as [->|[->|(m' & e3 & ->)]]; reflexivity.
    + apply (unit_bounded_le_one (xorb false false)).
      apply SFdiv_unit; [exact Hvx | exact Hby | apply SFleb_mag, Hle | exact Hvr].
Qed.

(** The quotient by a positive finite double is at least minus one when the
    numerator is at least minus that double. *)
Lemma div_ge_minus_one x mx :
  is_finite mx = true -> (0 <? mx) = true -> (- mx <=? x) = true ->
  (-1 <=? x / mx) = true.
Proof.
  intros Hf Hp Hle.
  destruct (finite_positive mx Hf Hp) as (my & ey & Emx & Hby).
  pose proof (Prim2SF_valid x) as Hvx. pose proof (Prim2SF_valid (x / mx)) as Hvr.
  rewrite leb_spec in Hle |- *. rewrite div_spec in Hvr |- *.
  rewrite opp_spec in Hle.
  rewrite Emx in *. rewrite Prim2SF_minus_one. cbn [SFopp negb] in Hle.
  destruct (Prim2SF x) as [s|s| |s m e].
  - destruct s; reflexivity.
  - destruct s; [discriminate | reflexivity].
  - discriminate.
  - destruct s.
    + apply (unit_bounded_ge_minus_one (xorb true false)).
      apply SFdiv_unit; [exact Hvx | exact Hby | apply SFleb_mag_neg, Hle | exact Hvr].
    + unfold SF64div, SFdiv.
      destruct (SFdiv_core_binary prec emax (Z.pos m) e (Z.pos my) ey)
        as [[q e'] l] eqn:E.
      pose proof (SFdiv_core_nonneg _ _ _ _ _ _ _ E) as Hq.
      cbn [xorb].
      destruct (binary_round_aux_sign false q e' l Hq)
        as [->|[->|(m' & e3 & ->)]]; reflexivity.
Qed.

End DivisionBound.

(** *** Not-a-number entries and the maximum *)

Lemma SFeqb_refl_not_nan x :
  SFeqb x x = false -> x = S754_nan.
Proof.
  destruct x as [s|s| |s m e]; try reflexivity; unfold SFeqb, SFcompare.
  - destruct s; discriminate.
  - destruct s; discriminate.
  - destruct s; rewrite Z.compare_refl;
      change (Pos.compare_cont Eq m m) with (Pos.compare m m);
      rewrite Pos.compare_refl; discriminate.
Qed.

Lemma is_nan_Prim2SF x : is_nan x = true -> Prim2SF x = S754_nan.
Proof.
  unfold is_nan. rewrite FloatAxioms.eqb_spec. intros H.
  apply SFeqb_refl_not_nan. destruct (SFeqb (Prim2SF x) (Prim2SF x));
    [discriminate | reflexivity].
Qed.

Lemma Prim2SF_is_nan x : Prim2SF x = S754_nan -> is_nan x = true.
Proof.
  intros H. unfold is_nan. rewrite FloatAxioms.eqb_spec, H. reflexivity.
Qed.

Lemma div_by_nan x y : is_nan y = true -> is_nan (x / y)%float = true.
Proof.
  intros H. apply Prim2SF_is_nan. rewrite div_spec, (is_nan_Prim2SF y H).
  unfold SF64div, SFdiv. destruct (Prim2SF x); reflexivity.
Qed.

Lemma fmax_cases cfg x y : fmax cfg x y = x \/ fmax cfg x y = y.
Proof.
  unfold fmax. destruct (is_nan x); [left; reflexivity|].
  destruct (is_nan y); [right; reflexivity|].
  destruct (y <? x)%float; [left; reflexivity|].
  destruct (x <? y)%float; [right; reflexivity|].
  destruct (max_keeps_later cfg x y); [right | left]; reflexivity.
Qed.

Lemma fold_fmax_In cfg rest :
  forall x, In (fold_left (fmax cfg) rest x) (x :: rest).
Proof.
  induction rest as [|y rest IH]; intros x; simpl.
  - left; reflexivity.
  - destruct (IH (fmax cfg x y)) as [H|H].
    + destruct (fmax_cases cfg x y) as [E|E]; [left | right; left];
        rewrite <- H; symmetry; exact E.
    + right; right; exact H.
Qed.

Lemma np_max_In cfg d mx : np_max cfg d = Ok mx -> In mx d.
Proof.
  destruct d as [|x rest]; [discriminate|]. simpl. intros H.
  inversion H. apply fold_fmax_In.
Qed.

Lemma fold_fmax_nan_acc cfg rest :
  forall x, is_nan x = true -> fold_left (fmax cfg) rest x = x.
Proof.
  induction rest as [|y rest IH]; intros x H; simpl; [reflexivity|].
  assert (E : fmax cfg x y = x) by (unfold fmax; rewrite H; reflexivity).
  rewrite E. apply IH. exact H.
Qed.

Lemma fold_fmax_nan cfg rest :
  forall x y, In y (x :: rest) -> is_nan y = true ->
    is_nan (fold_left (fmax cfg) rest x) = true.
Proof.
  induction rest as [|z rest IH]; intros x y Hin Hy.
  - destruct Hin as [->|[]]. exact Hy.
  - simpl. destruct (is_nan x) eqn:Hx.
    + rewrite (fold_fmax_nan_acc cfg rest (fmax cfg x z));
        unfold fmax; rewrite Hx; exact Hx.
    + destruct Hin as [->|[->|Hin]].
      * congruence.
      * apply (IH (fmax cfg x y) (fmax cfg x y)); [left; reflexivity|].
        unfold fmax. rewrite Hx, Hy. exact Hy.
      * apply (IH (fmax cfg x z) y); [right; exact Hin | exact Hy].
Qed.

(** The larger of two doubles is above both, unless one is not a number. *)
Lemma fmax_upper cfg x y :
  is_nan (fmax cfg x y) = false ->
  (x <=? fmax cfg x y)%float = true /\ (y <=? fmax cfg x y)%float = true.
Proof.
  unfold fmax. destruct (is_nan x) eqn:Hx; [congruence|].
  destruct (is_nan y) eqn:Hy; [congruence|]. intros _.
  destruct (y <? x)%float eqn:E;
    [split; [apply leb_refl, Hx | apply ltb_leb, E]|].
  destruct (x <? y)%float eqn:E';
    [split; [apply ltb_leb, E' | apply leb_refl, Hy]|].
  destruct (max_keeps_later cfg x y).
  - split; [apply leb_total; assumption | apply leb_refl, Hy].
  - split; [apply leb_refl, Hx | apply leb_total; assumption].
Qed.

Lemma fold_fmax_upper cfg rest :
  forall x, is_nan (fold_left (fmax cfg) rest x) = false ->
    forall y, In y (x :: rest) ->
      (y <=? fold_left (fmax cfg) rest x)%float = true.
Proof.
  induction rest as [|z rest IH]; intros x Hn y Hin.
  - destruct Hin as [->|[]]. apply leb_refl, Hn.
  - simpl in Hn |- *.
    assert (Hxz : is_nan (fmax cfg x z) = false).
    { destruct (is_nan (fmax cfg x z)) eqn:E; [|reflexivity].
      rewrite (fold_fmax_nan_acc cfg rest _ E) in Hn. congruence. }
    destruct (fmax_upper cfg x z Hxz) as [Hx Hz].
    pose proof (IH (fmax cfg x z) Hn (fmax cfg x z) (or_introl eq_refl)) as Htop.
    destruct Hin as [->|[->|Hin]].
    + exact (leb_trans _ _ _ Hx Htop).
    + exact (leb_trans _ _ _ Hz Htop).
    + apply (IH (fmax cfg x z) Hn). right. exact Hin.
Qed.

Lemma np_max_upper cfg d mx :
  np_max cfg d = Ok mx -> is_nan mx = false ->
  forall y, In y d -> (y <=? mx)%float = true.
Proof.
  destruct d as [|x rest]; [discriminate|]. simpl. intros H Hn.
  inversion H as [Hmx]. rewrite <- Hmx in Hn. apply fold_fmax_upper, Hn.
Qed.

(** Dividing by a positive finite maximum: every quotient is at most 1.0,
    and the largest of them is exactly 1.0. *)
Lemma normalized_by_positive_max cfg d mx :
  np_max cfg d = Ok mx -> is_finite mx = true -> (0 <? mx)%float = true ->
  np_max cfg (map (fun x => (x / mx)%float) d) = Ok 1%float
  /\ forall y, In y (map (fun x => (x / mx)%float) d) -> (y <=? 1)%float = true.
Proof.
  intros Hmx Hf Hp.
  set (r := map (fun x => (x / mx)%float) d).
  assert (Hle : forall y, In y r -> (y <=? 1)%float = true).
  { intros y Hy. apply in_map_iff in Hy as (x & <- & Hx).
    apply div_le_one; [exact Hf | exact Hp|].
    apply (np_max_upper cfg d mx Hmx (finite_not_nan mx Hf) x Hx). }
  split; [|exact Hle].
  assert (H1 : In 1%float r).
  { rewrite <- (div_self_finite mx Hf (positive_not_zero mx Hp)).
    apply (in_map (fun x => (x / mx)%float)). apply (np_max_In cfg), Hmx. }
  destruct (np_max cfg r) as [R|e] eqn:ER.
  - f_equal. pose proof (np_max_In cfg r R ER) as HR.
    pose proof (Hle R HR) as HR1.
    apply leb_antisym_one; [exact HR1|].
    apply (np_max_upper cfg r R ER); [|exact H1].
    apply (leb_not_nan _ _ HR1).
  - destruct r; [destruct H1 | discriminate].
Qed.

(** C9, as the code has it: [getJtJdiag] returns the output of the estimator
    with every entry divided by the result of [np.max] on that output, which
    is one of its entries.  When that maximum is a finite non-zero double,
    the entry attaining it becomes exactly 1.0; when it is moreover positive,
    the maximum of the returned vector is exactly 1.0, every entry is at
    most 1.0, and an entry is at least -1.0 as soon as the estimate it comes
    from is at least minus the maximum.  Nothing is checked about the sign or
    the vanishing of the maximum, nor about the estimates below minus the
    maximum. *)
Theorem getJtJdiag_divides_by_max V cfg diagEst m k st :
  getJtJdiag V cfg diagEst m k st
  = match diagEst (JtJv V cfg m) (length m)
            (match k with None => default_k cfg | Some k' => k' end) st with
    | (Ok d, st') =>
        (rbind (np_max cfg d) (fun mx => Ok (map (fun x => (x / mx)%float) d)), st')
    | (Raise e, st') => (Raise e, st')
    end
  /\ forall d st' mx,
       diagEst (JtJv V cfg m) (length m)
               (match k with None => default_k cfg | Some k' => k' end) st
       = (Ok d, st') ->
       np_max cfg d = Ok mx ->
       getJtJdiag V cfg diagEst m k st
       = (Ok (map (fun x => (x / mx)%float) d), st')
       /\ In mx d
       /\ length (map (fun x => (x / mx)%float) d) = length d
       /\ (is_finite mx = true -> is_zero mx = false ->
           In 1%float (map (fun x => (x / mx)%float) d))
       /\ (is_finite mx = true -> (0 <? mx)%float = true ->
           np_max cfg (map (fun x => (x / mx)%float) d) = Ok 1%float
           /\ (forall y, In y (map (fun x => (x / mx)%float) d) ->
                 (y <=? 1)%float = true)
           /\ (forall x, In x d -> (- mx <=? x)%float = true ->
                 (-1 <=? x / mx)%float = true)).
Proof.
  assert (Hrun : getJtJdiag V cfg diagEst m k st
    = match diagEst (JtJv V cfg m) (length m)
              (match k with None => default_k cfg | Some k' => k' end) st with
      | (Ok d, st') =>
          (rbind (np_max cfg d) (fun mx => Ok (map (fun x => (x / mx)%float) d)), st')
      | (Raise e, st') => (Raise e, st')
      end).
  { unfold getJtJdiag, bind.
    destruct (diagEst _ _ _ st) as [[d|e] st']; [|reflexivity].
    unfold lift. destruct (np_max cfg d); reflexivity. }
  split; [exact Hrun|].
  intros d st' mx E Hmx.
  split; [rewrite Hrun, E, Hmx; reflexivity|].
  pose proof (np_max_In cfg d mx Hmx) as Hin.
  split; [exact Hin|]. split; [apply length_map|]. split.
  - intros Hf Hz.
    apply (in_map (fun y => (y / mx)%float)) in Hin. cbv beta in Hin.
    rewrite (div_self_finite mx Hf Hz) in Hin. exact Hin.
  - intros Hf Hp.
    destruct (normalized_by_positive_max cfg d mx Hmx Hf Hp) as [Hone Hle].
    split; [exact Hone|]. split; [exact Hle|].
    intros x _ Hx. apply div_ge_minus_one; assumption.
Qed.

(** C9, as stated, fails.  On the sample survey (one datum, default number
    of probes) the estimate is divided by a maximum that is not a number,
    and the returned vector is [nan]: its maximum is not 1.0 and its entry is
    not in [-1, 1].  An estimate (1, -5), whose maximum is 1, is returned as
    it is, with an entry below -1.  An estimate (-2, -1), whose maximum is
    negative, is returned as (2, 1), whose maximum is 2. *)
Lemma getJtJdiag_not_normalized :
  (exists r,
     fst (getJtJdiag Scenario.V3 Scenario.cfgA (Sample.diagEst [[1%float]])
            Scenario.m1 None Sample.st0) = Ok r
     /\ match np_max Scenario.cfgA r with Ok mx => (mx =? 1)%float | Raise _ => false end = false
     /\ forallb (fun x => (-1 <=? x)%float && (x <=? 1)%float) r = false)
  /\ (exists r,
       fst (getJtJdiag Scenario.V3 Scenario.cfgA
              (Cases.est_const [1%float; (-5)%float])
              Scenario.m1 None Sample.st0) = Ok r
       /\ forallb (fun x => (-1 <=? x)%float && (x <=? 1)%float) r = false)
  /\ (exists r,
       fst (getJtJdiag Scenario.V3 Scenario.cfgA
              (Cases.est_const [(-2)%float; (-1)%float])
              Scenario.m1 None Sample.st0) = Ok r
       /\ match np_max Scenario.cfgA r with Ok mx => (mx =? 1)%float | Raise _ => false end = false).
Proof.
  split; [|split].
  - eexists. split; [vm_compute; reflexivity|].
    split; vm_compute; reflexivity.
  - eexists. split; vm_compute; reflexivity.
  - eexists. split; vm_compute; reflexivity.
Qed.

Lemma getJtJdiag_divides_by_max_witness :
  getJtJdiag Scenario.V3 Scenario.cfgA
    (Cases.est_const [0.5%float; 2%float; (-1)%float]) Scenario.m1 None Sample.st0
  = (Ok (map (fun x => (x / 2)%float) [0.5%float; 2%float; (-1)%float]), Sample.st0)
  /\ np_max Scenario.cfgA
       (map (fun x => (x / 2)%float) [0.5%float; 2%float; (-1)%float])
     = Ok 1%float
  /\ (forall y, In y (map (fun x => (x / 2)%float) [0.5%float; 2%float; (-1)%float]) ->
        (y <=? 1)%float = true).
Proof.
  destruct (proj2 (getJtJdiag_divides_by_max Scenario.V3 Scenario.cfgA
              (Cases.est_const [0.5%float; 2%float; (-1)%float])
              Scenario.m1 None Sample.st0)
              [0.5%float; 2%float; (-1)%float] Sample.st0 2%float)
    as (Hrun & _ & _ & _ & Hn).
  - reflexivity.
  - vm_compute. reflexivity.
  - destruct Hn as (Hone & Hle & _).
    + vm_compute. reflexivity.
    + vm_compute. reflexivity.
    + split; [exact Hrun|]. split; [exact Hone | exact Hle].
Defined.

(** *** Shapes *)
















(** *** The two inner products of the adjoint test

    With one datum and one parameter the inner products of the adjoint test
    are the single entries of [Jvec(m, [1])] and [Jtvec(m, [1])].  On the
    sample survey the doubles obtained are not equal (they differ in the last
    place): between the two passes only an agreement up to rounding can be
    expected. *)
Lemma adjoint_pair_differs_in_last_place :
  exists a b,
    fst (Jvec Scenario.V3 Scenario.cfgA Scenario.m1 [1%float] None Sample.st0)
    = Ok [a]
    /\ fst (Jtvec Scenario.V3 Scenario.cfgA Scenario.m1 (RawVector [1%float])
              None Sample.st0) = Ok [b]
    /\ (a =? b)%float = false
    /\ (b <? a)%float = true
    /\ (a - b <? 0x1p-50)%float = true.
Proof.
  do 2 eexists. split; [vm_compute; reflexivity|].
  split; [vm_compute; reflexivity|].
  repeat split; vm_compute; reflexivity.
Qed.

(** ** Further properties of the sensitivity passes *)

Lemma Jvec_count V cfg m v st :
  is_ok (fst (Jvec V cfg m v None st)) = true ->
  factorizations (snd (Jvec V cfg m v None st))
  = factorizations st + num_frequencies (survey cfg).
Proof.
  intros Hok. rewrite Jvec_without_fields in *.
  destruct (fields V cfg (Some m) st) as [[F|e] st1] eqn:E; [|discriminate].
  destruct (computed V cfg F) as [F'|e]; [|discriminate].
  rewrite Jvec_given_fields_state. apply fields_count in E. exact E.
Qed.

Lemma Jtvec_count V cfg m w st :
  is_ok (fst (Jtvec V cfg m w None st)) = true ->
  factorizations (snd (Jtvec V cfg m w None st))
  = factorizations st + num_frequencies (survey cfg).
Proof.
  intros Hok. rewrite Jtvec_without_fields in *.
  destruct (fields V cfg (Some m) st) as [[F|e] st1] eqn:E; [|discriminate].
  destruct (computed V cfg F) as [F'|e]; [|discriminate].
  rewrite Jtvec_given_fields_state. apply fields_count in E. exact E.
Qed.

(** X1: given a fields object, [Jvec] and [Jtvec] request no factorization
    and release none, and leave [self.Ainv] as it is, whether the call
    succeeds or raises; the model of the simulation is [m] afterwards. *)
Theorem sensitivities_with_fields_leave_the_cache V cfg m v w F st :
  (Ainv (snd (Jvec V cfg m v (Some F) st)) = Ainv st
   /\ events (snd (Jvec V cfg m v (Some F) st)) = events st
   /\ model (snd (Jvec V cfg m v (Some F) st)) = Some m)
  /\ (Ainv (snd (Jtvec V cfg m w (Some F) st)) = Ainv st
      /\ events (snd (Jtvec V cfg m w (Some F) st)) = events st
      /\ model (snd (Jtvec V cfg m w (Some F) st)) = Some m).
Proof.
  rewrite Jvec_given_fields_state, Jtvec_given_fields_state.
  repeat split.
Qed.

(** X2: one application of the operator probed by [getJtJdiag], [Jtvec(m,
    Jvec(m, v))], runs the forward solve twice: when it succeeds, two
    factorizations per frequency have been requested. *)
Theorem JtJv_solves_forward_twice V cfg m v st :
  is_ok (fst (JtJv V cfg m v st)) = true ->
  factorizations (snd (JtJv V cfg m v st))
  = factorizations st + 2 * num_frequencies (survey cfg).
Proof.
  unfold JtJv, bind. intros Hok.
  pose proof (Jvec_count V cfg m v st) as H1.
  destruct (Jvec V cfg m v None st) as [[Jv|e] st1]; [|discriminate].
  simpl in H1. specialize (H1 eq_refl).
  rewrite (Jtvec_count V cfg m (RawVector Jv) st1 Hok). lia.
Qed.

Lemma JtJv_solves_forward_twice_witness :
  factorizations (snd (JtJv Scenario.V3 Cases.cfg2 Cases.m1 Cases.v1 Sample.st0))
  = factorizations Sample.st0 + 2 * num_frequencies (survey Cases.cfg2).
Proof.
  apply (JtJv_solves_forward_twice Scenario.V3 Cases.cfg2 Cases.m1 Cases.v1
           Sample.st0).
  vm_compute. reflexivity.
Defined.

(** *** The accumulation of [Jtv] *)

Lemma radd_all_app Jtv a b :
  radd_all Jtv (a ++ b) = rbind (radd_all Jtv a) (fun Jtv' => radd_all Jtv' b).
Proof.
  revert Jtv. induction a as [|c a IH]; intros Jtv; simpl; [reflexivity|].
  destruct (radd Jtv c) as [Jtv'|e]; simpl; [apply IH | reflexivity].
Qed.

Lemma Jtvec_source_state V cfg f v nF freq Jtv src st :
  snd (Jtvec_source V cfg f v nF freq Jtv src st) = st.
Proof.
  symmetry.
  exact (frame_Jtvec_source eq (@eq_refl _) (@eq_trans _) V cfg f v nF freq
           Jtv src st).
Qed.

Lemma Jtvec_source_run V cfg f v nF freq Jtv src st Jtv' st' :
  Jtvec_source V cfg f v nF freq Jtv src st = (Ok Jtv', st') ->
  is_ok (source_du_dmT V cfg f v st nF freq src) = true
  /\ radd Jtv (adjoint_contribution V cfg f v st nF freq src) = Ok Jtv'.
Proof.
  unfold adjoint_contribution, source_du_dmT, Jtvec_source. intros E.
  apply bind_Ok_inv in E as (PTv & s1 & E1 & E).
  apply bind_Ok_inv in E as (dA_duIT & s2 & E2 & E).
  apply bind_Ok_inv in E as (dA_dmT & s3 & E3 & E).
  apply bind_Ok_inv in E as (dRHS_dmT & s4 & E4 & E).
  apply bind_Ok_inv in E as (du_dmT & s5 & E5 & E).
  apply lift_Ok_inv in E as [E _].
  unfold bind. rewrite E1, E2, E3, E4, E5. simpl. split; [reflexivity | exact E].
Qed.

Lemma Jtvec_sources_layout V cfg f v nF freq srcs :
  forall Jtv st Jtv' st',
    Jtvec_sources V cfg f v nF freq Jtv srcs st = (Ok Jtv', st') ->
    st' = st
    /\ radd_all Jtv (map (adjoint_contribution V cfg f v st nF freq) srcs)
       = Ok Jtv'
    /\ forall src, In src srcs ->
         is_ok (source_du_dmT V cfg f v st nF freq src) = true.
Proof.
  induction srcs as [|src rest IH]; intros Jtv st Jtv' st' E; simpl in E.
  - inversion E; subst. repeat split. intros ? [].
  - apply bind_Ok_inv in E as (Jtv1 & s1 & E1 & E).
    pose proof (Jtvec_source_state V cfg f v nF freq Jtv src st) as Hs.
    rewrite E1 in Hs. simpl in Hs. subst s1.
    apply Jtvec_source_run in E1 as [Hok1 Hadd].
    apply IH in E as (-> & Hall & Hok).
    split; [reflexivity|]. split.
    + simpl. rewrite Hadd. simpl. exact Hall.
    + intros s0 [<-|Hin]; [exact Hok1 | apply Hok, Hin].
Qed.

Lemma Jtvec_frequencies_layout V cfg f v freqs :
  forall nF Jtv st Jtv' st',
    Jtvec_frequencies V cfg f v nF Jtv freqs st = (Ok Jtv', st') ->
    st' = st
    /\ radd_all Jtv
         (concat (imap (fun i freq =>
                    map (adjoint_contribution V cfg f v st (nF + i) freq)
                        (get_sources_by_frequency (survey cfg) freq))
                  freqs))
       = Ok Jtv'
    /\ forall i freq src,
         freqs !! i = Some freq ->
         In src (get_sources_by_frequency (survey cfg) freq) ->
         is_ok (source_du_dmT V cfg f v st (nF + i) freq src) = true.
Proof.
  induction freqs as [|freq rest IH]; intros nF Jtv st Jtv' st' E; simpl in E.
  - inversion E; subst. repeat split.
    intros i ? ? H. rewrite lookup_nil in H. discriminate.
  - apply bind_Ok_inv in E as (Jtv1 & s1 & E1 & E).
    apply Jtvec_sources_layout in E1 as (-> & Hall1 & Hok1).
    apply IH in E as (-> & Hall2 & Hok2).
    split; [reflexivity|]. split.
    + rewrite imap_cons, concat_cons, radd_all_app, Nat.add_0_r, Hall1.
      simpl. rewrite <- Hall2. f_equal. f_equal. apply imap_ext.
      intros i x _. simpl. f_equal. f_equal. lia.
    + intros [|i] fr src Hl Hin; simpl in Hl.
      * inversion Hl; subst. rewrite Nat.add_0_r. apply Hok1, Hin.
      * replace (nF + S i) with (S nF + i) by lia. apply (Hok2 i fr src Hl Hin).
Qed.

(** X3: whenever [Jtvec] returns, with or without a fields object, its
    result is [zeros(len(m))] to which the real parts of the adjoint
    contributions [du_dmT] of the sources have been added one after the
    other in the order of the survey (frequency by frequency, source by
    source within a frequency), the contribution of a source of the
    frequency at position [nF] being computed with the solve of cache slot
    [nF]; every such contribution has been computed without error. *)
Theorem Jtvec_adds_contributions_in_survey_order V cfg m w f st Jtv :
  fst (Jtvec V cfg m w f st) = Ok Jtv ->
  let F := fields_used V cfg m f st in
  let st1 := state_used V cfg m f st in
  radd_all (replicate (length m) 0%float)
    (contributions_in_survey_order V cfg F (data_used cfg w) st1) = Ok Jtv
  /\ forall nF freq src,
       frequencies (survey cfg) !! nF = Some freq ->
       In src (get_sources_by_frequency (survey cfg) freq) ->
       is_ok (source_du_dmT V cfg F (data_used cfg w) st1 nF freq src) = true.
Proof.
  assert (Hgiven : forall F s, fst (Jtvec V cfg m w (Some F) s) = Ok Jtv ->
    radd_all (replicate (length m) 0%float)
      (contributions_in_survey_order V cfg F (data_used cfg w) (with_model m s))
    = Ok Jtv
    /\ forall nF freq src,
         frequencies (survey cfg) !! nF = Some freq ->
         In src (get_sources_by_frequency (survey cfg) freq) ->
         is_ok (source_du_dmT V cfg F (data_used cfg w) (with_model m s)
                  nF freq src) = true).
  { intros F s H. unfold Jtvec in H.
    change (bind (ret F) ?k s) with (k F s) in H. cbv beta in H.
    change (bind (set_model m) ?k s) with (k tt (with_model m s)) in H.
    cbv beta in H. fold (data_used cfg w) in H.
    match type of H with fst (?c ?s0) = _ =>
      destruct (c s0) as [[r|e] s'] eqn:E end; simpl in H; [|discriminate].
    inversion H; subst r.
    apply Jtvec_frequencies_layout in E as (_ & Hall & Hok).
    split; [exact Hall | exact Hok]. }
  intros H F st1. subst F st1. destruct f as [F|]; [apply (Hgiven F st H)|].
  rewrite Jtvec_without_fields in H.
  unfold fields_used, state_used.
  destruct (fields V cfg (Some m) st) as [[F|e] st1]; [|discriminate].
  simpl. destruct (computed V cfg F) as [F'|e]; [|discriminate].
  apply (Hgiven F' st1 H).
Qed.

Lemma Jtvec_adds_contributions_in_survey_order_witness :
  radd_all (replicate (length Cases.m1) 0%float)
    (contributions_in_survey_order Scenario.V3 Cases.cfg2
       (fields_used Scenario.V3 Cases.cfg2 Cases.m1 None Sample.st0)
       (data_used Cases.cfg2 (RawVector Cases.w4))
       (state_used Scenario.V3 Cases.cfg2 Cases.m1 None Sample.st0))
  = Ok (match fst (Jtvec Scenario.V3 Cases.cfg2 Cases.m1 (RawVector Cases.w4)
                     None Sample.st0) with
        | Ok Jtv => Jtv
        | Raise _ => []
        end).
Proof.
  refine (proj1 (Jtvec_adds_contributions_in_survey_order Scenario.V3 Cases.cfg2
                   Cases.m1 (RawVector Cases.w4) None Sample.st0 _ _)).
  vm_compute. reflexivity.
Defined.

(** X4: [Jvec] reads the number of components off the first source of the
    first frequency before it enters its loops: on a survey without
    frequencies, or whose first frequency has no source, it raises
    [IndexError]; when that first source has no receiver it raises
    [ZeroDivisionError], whatever the other sources hold.  In each case the
    model has been set and nothing else has happened. *)
Theorem Jvec_needs_a_first_receiver V cfg m v F st :
  (frequencies (survey cfg) = [] ->
   Jvec V cfg m v (Some F) st = (Raise IndexError, with_model m st))
  /\ (forall freq0 rest,
       frequencies (survey cfg) = freq0 :: rest ->
       get_sources_by_frequency (survey cfg) freq0 = [] ->
       Jvec V cfg m v (Some F) st = (Raise IndexError, with_model m st))
  /\ (forall freq0 rest src0 srcs,
       frequencies (survey cfg) = freq0 :: rest ->
       get_sources_by_frequency (survey cfg) freq0 = src0 :: srcs ->
       receiver_list src0 = [] ->
       Jvec V cfg m v (Some F) st = (Raise ZeroDivisionError, with_model m st)).
Proof.
  split; [|split].
  - intros Hf. unfold Jvec, Jvec_m_dim. rewrite Hf. reflexivity.
  - intros freq0 rest Hf Hs. unfold Jvec, Jvec_m_dim. rewrite Hf. simpl.
    unfold bind, ret, set_model, lift, index. simpl. rewrite Hs. reflexivity.
  - intros freq0 rest src0 srcs Hf Hs Hr. unfold Jvec, Jvec_m_dim. rewrite Hf.
    unfold bind, ret, set_model, lift, index. simpl. rewrite Hs. simpl.
    rewrite Hr. reflexivity.
Qed.

Lemma Jvec_needs_a_first_receiver_witness :
  Jvec Scenario.V3 Cases.cfg_norx Cases.m1 Cases.v1 (Some ∅) Sample.st0
  = (Raise ZeroDivisionError, with_model Cases.m1 Sample.st0).
Proof.
  refine (proj2 (proj2 (Jvec_needs_a_first_receiver Scenario.V3 Cases.cfg_norx
                          Cases.m1 Cases.v1 ∅ Sample.st0))
            1%float [] (Sample.src []) [] _ _ _).
  - reflexivity.
  - reflexivity.
  - reflexivity.
Defined.

(** *** The receivers behind the blocks of [Jv] *)

Lemma source_blocks_ok V cfg f v st nF freq src :
  is_ok (fst (Jvec_source V cfg f v nF freq src st)) = true ->
  is_ok (source_du_dm_v V cfg f v st nF freq src) = true
  /\ source_blocks V cfg f v st nF freq src
     = map (fun rx => evalDeriv rx (src_id src) (mesh cfg) f
                        (mkvc (perturbation V cfg f v st nF freq src)))
           (receiver_list src).
Proof.
  unfold source_blocks, perturbation, source_du_dm_v, Jvec_source, bind.
  destruct (getADeriv V cfg freq (fields_of_src f (src_id src)) (upcast v)
              false st) as [[dA|e] s1]; [|discriminate].
  destruct (getRHSDeriv V cfg freq (upcast v) false s1) as [[dRHS|e] s2];
    [|discriminate].
  destruct (Jvec_du_dm_v nF dA dRHS s2) as [[du|e] s3]; [|discriminate].
  intros _. split; reflexivity.
Qed.

(** X5: whenever [Jvec] returns, with or without a fields object, its result
    is the concatenation, in the order of the survey (frequency by
    frequency, source by source, receiver by receiver), of what
    [rx.evalDeriv] returns for each receiver on the flattened perturbation of
    its source, that perturbation being the solve with the cache slot of the
    position of the frequency; every such solve has succeeded, there is one
    block per receiver of the survey, and at least one. *)
Theorem Jvec_has_one_block_per_receiver V cfg m v f st Jv :
  fst (Jvec V cfg m v f st) = Ok Jv ->
  let F := fields_used V cfg m f st in
  let st1 := state_used V cfg m f st in
  Jv = concat (blocks_in_survey_order cfg F (perturbation V cfg F v st1))
  /\ length (blocks_in_survey_order cfg F (perturbation V cfg F v st1))
     = receivers_total cfg
  /\ 0 < receivers_total cfg
  /\ forall nF freq src,
       frequencies (survey cfg) !! nF = Some freq ->
       In src (get_sources_by_frequency (survey cfg) freq) ->
       is_ok (source_du_dm_v V cfg F v st1 nF freq src) = true.
Proof.
  intros H F st1.
  destruct (Jvec_layout V cfg m v f st Jv H) as (HJ & Hlen & Hpos & Hok).
  fold F st1 in HJ, Hlen, Hok.
  assert (Hb : survey_blocks V cfg F v st1
               = blocks_in_survey_order cfg F (perturbation V cfg F v st1)).
  { unfold survey_blocks, blocks_in_survey_order. f_equal.
    apply imap_ext. intros nF freq Hfreq. unfold frequency_blocks. f_equal.
    apply map_ext_in. intros src Hsrc.
    apply source_blocks_ok, (Hok nF freq src Hfreq Hsrc). }
  rewrite <- Hb. split; [exact HJ|]. split; [exact Hlen|].
  split; [exact Hpos|].
  intros nF freq src Hfreq Hsrc.
  apply source_blocks_ok, (Hok nF freq src Hfreq Hsrc).
Qed.

Lemma Jvec_has_one_block_per_receiver_witness :
  match fst (Jvec Scenario.V3 Cases.cfg2 Cases.m1 Cases.v1 None Sample.st0) with
  | Ok Jv => Jv
  | Raise _ => []
  end
  = concat (blocks_in_survey_order Cases.cfg2
              (fields_used Scenario.V3 Cases.cfg2 Cases.m1 None Sample.st0)
              (perturbation Scenario.V3 Cases.cfg2
                 (fields_used Scenario.V3 Cases.cfg2 Cases.m1 None Sample.st0)
                 Cases.v1
                 (state_used Scenario.V3 Cases.cfg2 Cases.m1 None Sample.st0))).
Proof.
  refine (proj1 (Jvec_has_one_block_per_receiver Scenario.V3 Cases.cfg2
                   Cases.m1 Cases.v1 None Sample.st0 _ _)).
  vm_compute. reflexivity.
Defined.

(** *** The cache after the forward pass of the 3-D formulation *)

Lemma bind_post {A B} (m : M A) (k : A -> M B) (P : state -> Prop) st :
  (forall e s, m st = (Raise e, s) -> P s) ->
  (forall a s, m st = (Ok a, s) -> P (snd (k a s))) ->
  P (snd (bind m k st)).
Proof.
  intros Hr Ho. unfold bind. destruct (m st) as [[a|e] s] eqn:E.
  - apply (Ho a s eq_refl).
  - apply (Hr e s eq_refl).
Qed.

Lemma readonly_post {A B} (m : M A) (k : A -> M B) (P : state -> Prop) st :
  readonly m -> P st ->
  (forall a, m st = (Ok a, st) -> P (snd (k a st))) ->
  P (snd (bind m k st)).
Proof.
  intros Hro HP Ho. apply bind_post.
  - intros e s E. rewrite (readonly_run _ _ _ _ Hro E). exact HP.
  - intros a s E. pose proof (readonly_run _ _ _ _ Hro E) as ->. apply (Ho a E).
Qed.

Lemma readonly_lift {A} (r : result A) : readonly (lift r).
Proof. intros st; reflexivity. Qed.

Lemma fields_loop3D_fresh cfg ref :
  forall freqs F nf st,
    (forall j fr, freqs !! j = Some fr ->
                  frequencies (survey cfg) !! (nf + j) = Some fr) ->
    fresh_cache_for cfg ref st ->
    fresh_cache_for cfg ref (snd (Sim3D.fields_loop cfg F nf freqs st)).
Proof.
  induction freqs as [|freq rest IH]; intros F nf st Hfreqs Hst; simpl.
  - exact Hst.
  - apply readonly_post;
      [apply frame_getA3D; congruence | exact Hst | intros A EA].
    apply readonly_post;
      [apply frame_getRHS3D; congruence | exact Hst | intros rhs _].
    destruct Hst as (Hm & l & Hl & Hlen & Hslots).
    assert (Hst1 : fresh_cache_for cfg ref (add_event (Factorize A) st)).
    { split; [exact Hm|]. exists l. repeat split; assumption. }
    apply bind_post; rewrite call_Solver_run; intros x s E; inversion E; subst;
      [exact Hst1|].
    rename x into Anew, H0 into HS.
    assert (Hfresh : fresh_slot cfg ref nf Anew).
    { exists freq, A. split.
      - replace nf with (nf + 0) by lia. apply Hfreqs. reflexivity.
      - split; [|exact HS].
        transitivity (fst (Sim3D.getA cfg freq st));
          [apply getA3D_model; symmetry; exact Hm | rewrite EA; reflexivity]. }
    apply bind_post.
    { intros e s E'. unfold store_Ainv in E'. simpl in E'. rewrite Hl in E'.
      destruct (decide (nf < length l)); inversion E'; subst. exact Hst1. }
    intros [] s2 Est. apply store_Ainv_Ok_inv in Est as (l0 & Hl0 & Hnf & ->).
    simpl in Hl0. assert (l0 = l) by congruence. subst l0.
    set (s2 := {| model := model (add_event (Factorize A) st);
                  Ainv := Some (<[nf:=Some Anew]> l);
                  events := events (add_event (Factorize A) st) |}).
    assert (Hst2 : fresh_cache_for cfg ref s2).
    { split; [exact Hm|]. exists (<[nf:=Some Anew]> l).
      split; [reflexivity|]. split; [rewrite length_insert; exact Hlen|].
      intros i Fz Hi. destruct (decide (i = nf)) as [->|Hne].
      - rewrite list_lookup_insert_eq in Hi by exact Hnf.
        inversion Hi; subst. exact Hfresh.
      - rewrite list_lookup_insert_ne in Hi by congruence.
        apply (Hslots i Fz Hi). }
    apply readonly_post;
      [apply frame_Ainv_mul; congruence | exact Hst2 | intros e_s _].
    apply readonly_post; [apply readonly_lift | exact Hst2 | intros Src _].
    apply readonly_post; [apply readonly_lift | exact Hst2 | intros px _].
    apply readonly_post; [apply readonly_lift | exact Hst2 | intros py _].
    apply IH; [|exact Hst2].
    intros j fr Hj. replace (S nf + j) with (nf + S j) by lia.
    apply Hfreqs. exact Hj.
Qed.

(** X6: however [fields] of the 3-D formulation ends, normally or with an
    exception at any frequency, the cache it leaves has one slot per
    frequency, and every slot that holds a factorization holds one the
    backend returned, during this call, for the system matrix of that slot's
    frequency under the current model: no factorization of an earlier model
    survives the call. *)
Theorem fields3D_leaves_no_stale_factorization cfg m st :
  fresh_cache cfg (snd (Sim3D.fields cfg m st)).
Proof.
  unfold Sim3D.fields.
  set (st1 := snd ((match m with Some m' => set_model m' | None => ret tt end) st)).
  assert (E1 : (match m with Some m' => set_model m' | None => ret tt end) st
               = (Ok tt, st1)) by (subst st1; destruct m; reflexivity).
  unfold bind at 1. rewrite E1. unfold bind at 1. unfold try_except_pass.
  pose proof (frame_release_held cfg st1) as (Hm2 & _ & _).
  destruct (Sim3D.release_held cfg st1) as [r s2]. simpl in Hm2.
  unfold bind at 1. unfold set_Ainv at 1.
  set (s3 := {| model := model s2;
                Ainv := Some (replicate (num_frequencies (survey cfg)) None);
                events := events s2 |}).
  assert (H3 : fresh_cache_for cfg s3 s3).
  { split; [reflexivity|]. eexists. split; [reflexivity|].
    split; [apply length_replicate|].
    intros i Fz Hi. apply lookup_replicate in Hi as [Hi _]. discriminate. }
  pose proof (fields_loop3D_fresh cfg s3 (frequencies (survey cfg)) ∅ 0 s3
                (fun j fr Hj => Hj) H3) as Hfin.
  pose proof (keeps_model_fields_loop3D cfg (frequencies (survey cfg)) ∅ 0 s3) as Hk.
  unfold same_model in Hk.
  destruct Hfin as (Hm & l & Hl & Hlen & Hslots).
  split; [reflexivity|]. exists l. split; [exact Hl|]. split; [exact Hlen|].
  intros i Fz Hi. destruct (Hslots i Fz Hi) as (freq & A & Hf & HA & HS).
  exists freq, A. split; [exact Hf|]. split; [|exact HS].
  rewrite <- HA. apply getA3D_model. exact Hm.
Qed.

(** *** The 1-D formulation and the cache *)

Lemma same_cache_refl s : same_cache s s.
Proof. reflexivity. Qed.

Lemma same_cache_trans a b c : same_cache a b -> same_cache b c -> same_cache a c.
Proof. unfold same_cache; congruence. Qed.

Ltac cache_bind :=
  match goal with
  | |- _ (bind _ _) => apply frame_bind; [exact same_cache_trans | | intros ?]
  end.

Ltac cache_step :=
  first
    [ apply frame_getA1D | apply frame_getRHS1D | apply frame_lift
    | apply frame_ret | apply frame_raise ];
  first [ exact same_cache_refl | exact same_cache_trans ].

Lemma fields_loop1D_keeps_cache cfg freqs :
  forall F, frame same_cache (Sim1D.fields_loop cfg F freqs).
Proof.
  induction freqs as [|freq rest IH]; intros F; simpl.
  - apply frame_ret, same_cache_refl.
  - repeat cache_bind; try cache_step; [intros st; reflexivity | apply IH].
Qed.

Lemma fields1D_keeps_cache cfg m st :
  Ainv (snd (Sim1D.fields cfg m st)) = Ainv st.
Proof.
  unfold Sim1D.fields, bind.
  destruct m as [m'|]; simpl;
    match goal with |- context [Sim1D.fields_loop ?c ?F ?l ?s] =>
      pose proof (fields_loop1D_keeps_cache c l F s) as H;
      destruct (Sim1D.fields_loop c F l s) as [[a|e] s1] end; exact H.
Qed.

Lemma bind_not_ok_ro {A B} (m : M A) (k : A -> M B) st :
  readonly m -> (forall a, is_ok (fst (k a st)) = false) ->
  is_ok (fst (bind m k st)) = false.
Proof.
  intros Hro Hk. unfold bind. destruct (m st) as [[a|e] s] eqn:E; [|reflexivity].
  rewrite (readonly_run _ _ _ _ Hro E). apply Hk.
Qed.

Lemma Ainv_mul_without_cache nF x st :
  Ainv st = None -> is_ok (fst (Ainv_mul nF x st)) = false.
Proof. intros H. unfold Ainv_mul, bind, get_Ainv. rewrite H. reflexivity. Qed.

Lemma Jvec_source_without_cache V cfg f v nF freq src st :
  Ainv st = None -> is_ok (fst (Jvec_source V cfg f v nF freq src st)) = false.
Proof.
  intros H. unfold Jvec_source.
  apply bind_not_ok_ro; [apply frame_getADeriv; congruence | intros dA].
  apply bind_not_ok_ro; [apply frame_getRHSDeriv; congruence | intros dRHS].
  apply bind_not_ok_l. unfold Jvec_du_dm_v.
  apply bind_not_ok_ro; [apply readonly_lift | intros rhs].
  apply Ainv_mul_without_cache. exact H.
Qed.

Lemma Jvec_given_fields_without_cache V cfg m v F st :
  Ainv st = None -> is_ok (fst (Jvec V cfg m v (Some F) st)) = false.
Proof.
  intros H. unfold Jvec.
  change (bind (ret F) ?k st) with (k F st). cbv beta.
  change (bind (set_model m) ?k st) with (k tt (with_model m st)). cbv beta.
  unfold bind at 1. unfold lift at 1.
  destruct (Jvec_m_dim cfg) as [m_dim|e] eqn:Em; [|reflexivity].
  unfold Jvec_m_dim in Em.
  destruct (frequencies (survey cfg)) as [|freq0 rest] eqn:Hf; [discriminate|].
  simpl in Em.
  destruct (get_sources_by_frequency (survey cfg) freq0) as [|src0 srcs] eqn:Hs;
    [discriminate|].
  apply bind_not_ok_l. simpl. rewrite Hs. simpl.
  apply bind_not_ok_l. apply bind_not_ok_l.
  apply Jvec_source_without_cache. exact H.
Qed.

Lemma Jtvec_source_without_cache V cfg f v nF freq Jtv src st :
  Ainv st = None -> is_ok (fst (Jtvec_source V cfg f v nF freq Jtv src st)) = false.
Proof.
  intros H. unfold Jtvec_source.
  apply bind_not_ok_ro; [apply readonly_lift | intros PTv].
  apply bind_not_ok_l. unfold Jtvec_dA_duIT. apply bind_not_ok_l.
  apply Ainv_mul_without_cache. exact H.
Qed.

(** X7: [fields] of the 1-D formulation never writes the cache: whatever
    its outcome, [self.Ainv] is what it was before the call.  So on a 1-D
    simulation whose cache holds no list, [Jvec] never succeeds, with or
    without a fields object, and neither does [Jtvec] as soon as the first
    frequency of the survey has a source. *)
Theorem fields1D_never_fills_the_cache cfg m st :
  Ainv (snd (Sim1D.fields cfg m st)) = Ainv st
  /\ (Ainv st = None ->
      (forall m' v f,
          is_ok (fst (Jvec Simulation1DPrimarySecondary cfg m' v f st)) = false)
      /\ (forall m' w f freq0 rest src0 srcs,
          frequencies (survey cfg) = freq0 :: rest ->
          get_sources_by_frequency (survey cfg) freq0 = src0 :: srcs ->
          is_ok (fst (Jtvec Simulation1DPrimarySecondary cfg m' w f st)) = false)).
Proof.
  split; [apply fields1D_keeps_cache|]. intros Hnone. split.
  - intros m' v [F|]; [apply Jvec_given_fields_without_cache; exact Hnone|].
    rewrite Jvec_without_fields. simpl fields.
    pose proof (fields1D_keeps_cache cfg (Some m') st) as Hk.
    destruct (Sim1D.fields cfg (Some m') st) as [[F|e] st1]; [|reflexivity].
    destruct (computed _ cfg F) as [F'|e]; [|reflexivity].
    apply Jvec_given_fields_without_cache. simpl in Hk. congruence.
  - intros m' w f freq0 rest src0 srcs Hf Hs.
    assert (Hgiven : forall F s, Ainv s = None ->
      is_ok (fst (Jtvec Simulation1DPrimarySecondary cfg m' w (Some F) s)) = false).
    { intros F s Hn. unfold Jtvec.
      change (bind (ret F) ?k s) with (k F s). cbv beta.
      change (bind (set_model m') ?k s) with (k tt (with_model m' s)). cbv beta.
      rewrite Hf. simpl. rewrite Hs. simpl.
      apply bind_not_ok_l. apply bind_not_ok_l.
      apply Jtvec_source_without_cache. exact Hn. }
    destruct f as [F|]; [apply Hgiven; exact Hnone|].
    rewrite Jtvec_without_fields. simpl fields.
    pose proof (fields1D_keeps_cache cfg (Some m') st) as Hk.
    destruct (Sim1D.fields cfg (Some m') st) as [[F|e] st1]; [|reflexivity].
    destruct (computed _ cfg F) as [F'|e]; [|reflexivity].
    apply Hgiven. simpl in Hk. congruence.
Qed.

Lemma fields1D_never_fills_the_cache_witness :
  is_ok (fst (Jvec Simulation1DPrimarySecondary Scenario.cfg1 Scenario.m1
                Scenario.v1 (Some ∅) Scenario.st1)) = false.
Proof.
  refine (proj1 (proj2 (fields1D_never_fills_the_cache Scenario.cfg1 None
                          Scenario.st1) _) Scenario.m1 Scenario.v1 (Some ∅)).
  reflexivity.
Defined.

(** *** Not-a-number entries in the diagonal estimate *)

(** X8: a single not-a-number entry in the output of the estimator spoils
    the whole result of [getJtJdiag]: [np.max] of the estimate is then not a
    number, and every entry of the returned vector, of the same size as the
    estimate, is not a number. *)
Theorem getJtJdiag_spreads_nan V cfg diagEst m k st d st' y :
  diagEst (JtJv V cfg m) (length m)
          (match k with None => default_k cfg | Some k' => k' end) st
  = (Ok d, st') ->
  In y d -> is_nan y = true ->
  exists r, getJtJdiag V cfg diagEst m k st = (Ok r, st')
    /\ length r = length d
    /\ forall x, In x r -> is_nan x = true.
Proof.
  intros E Hin Hy. unfold getJtJdiag, bind. rewrite E.
  destruct d as [|x0 rest]; [destruct Hin|].
  unfold lift, np_max, ret.
  pose proof (fold_fmax_nan cfg rest x0 y Hin Hy) as Hmx.
  eexists. split; [reflexivity|]. split; [apply length_map|].
  intros x Hx. apply in_map_iff in Hx as (x1 & <- & _).
  apply div_by_nan. exact Hmx.
Qed.

Lemma getJtJdiag_spreads_nan_witness :
  exists r,
    getJtJdiag Scenario.V3 Scenario.cfgA
      (Cases.est_const [1%float; nan; 2%float]) Scenario.m1 None Sample.st0
    = (Ok r, Sample.st0)
    /\ length r = length [1%float; nan; 2%float]
    /\ forall x, In x r -> is_nan x = true.
Proof.
  refine (getJtJdiag_spreads_nan Scenario.V3 Scenario.cfgA
            (Cases.est_const [1%float; nan; 2%float]) Scenario.m1 None
            Sample.st0 [1%float; nan; 2%float] Sample.st0 nan _ _ _).
  - reflexivity.
  - right. left. reflexivity.
  - vm_compute. reflexivity.
Defined.

(** *** A frequency without sources *)

Lemma fields_loop1D_needs_sources cfg freq :
  get_sources_by_frequency (survey cfg) freq = [] ->
  forall freqs F st, In freq freqs ->
    is_ok (fst (Sim1D.fields_loop cfg F freqs st)) = false.
Proof.
  intros Hs. induction freqs as [|fr rest IH]; intros F st Hin; [destruct Hin|].
  simpl. destruct Hin as [->|Hin].
  - apply bind_not_ok_ro; [apply frame_getA1D; congruence | intros A].
    apply bind_not_ok_l. unfold Sim1D.getRHS, first_source. rewrite Hs.
    reflexivity.
  - repeat (apply bind_not_ok_r; intros ? ?). apply IH. exact Hin.
Qed.

Lemma fields_loop3D_needs_sources cfg freq :
  get_sources_by_frequency (survey cfg) freq = [] ->
  forall freqs F nf st, In freq freqs ->
    is_ok (fst (Sim3D.fields_loop cfg F nf freqs st)) = false.
Proof.
  intros Hs. induction freqs as [|fr rest IH]; intros F nf st Hin; [destruct Hin|].
  simpl. destruct Hin as [->|Hin].
  - apply bind_not_ok_ro; [apply frame_getA3D; congruence | intros A].
    apply bind_not_ok_l. unfold Sim3D.getRHS, first_source. rewrite Hs.
    reflexivity.
  - repeat (apply bind_not_ok_r; intros ? ?). apply IH. exact Hin.
Qed.

(** X9: every frequency of the survey needs a source: if one of them has
    none, [fields] of either formulation raises, and so do [Jvec] and
    [Jtvec] when they are called without a fields object. *)
Theorem fields_needs_a_source_per_frequency V cfg freq :
  In freq (frequencies (survey cfg)) ->
  get_sources_by_frequency (survey cfg) freq = [] ->
  (forall m st, is_ok (fst (fields V cfg m st)) = false)
  /\ (forall m v st, is_ok (fst (Jvec V cfg m v None st)) = false)
  /\ (forall m w st, is_ok (fst (Jtvec V cfg m w None st)) = false).
Proof.
  intros Hin Hs.
  assert (Hfields : forall m st, is_ok (fst (fields V cfg m st)) = false).
  { intros m st. destruct V; simpl.
    - unfold Sim1D.fields. apply bind_not_ok_r. intros _ s.
      apply (fields_loop1D_needs_sources cfg freq Hs); exact Hin.
    - unfold Sim3D.fields. repeat (apply bind_not_ok_r; intros ? ?).
      apply (fields_loop3D_needs_sources cfg freq Hs); exact Hin. }
  split; [exact Hfields|]. split.
  - intros m v st. rewrite Jvec_without_fields.
    specialize (Hfields (Some m) st).
    destruct (fields V cfg (Some m) st) as [[F|e] s]; [discriminate | reflexivity].
  - intros m w st. rewrite Jtvec_without_fields.
    specialize (Hfields (Some m) st).
    destruct (fields V cfg (Some m) st) as [[F|e] s]; [discriminate | reflexivity].
Qed.

Lemma fields_needs_a_source_per_frequency_witness :
  is_ok (fst (fields Scenario.V3 Cases.cfg_nosrc (Some Cases.m1) Sample.st0))
  = false.
Proof.
  refine (proj1 (fields_needs_a_source_per_frequency Scenario.V3 Cases.cfg_nosrc
                   1%float _ _) (Some Cases.m1) Sample.st0).
  - left. reflexivity.
  - reflexivity.
Defined.

(** *** The model after [fields] *)

Lemma keeps_model_fields_tail3D cfg :
  keeps_model
    (try_except_pass (Sim3D.release_held cfg) ;;
     set_Ainv (replicate (num_frequencies (survey cfg)) None) ;;
     Sim3D.fields_loop cfg ∅ 0 (frequencies (survey cfg))).
Proof.
  apply frame_bind; [exact same_model_trans | | intros _].
  - apply frame_try_except_pass. intros st.
    apply same_core_model, frame_release_held.
  - apply frame_bind; [exact same_model_trans | | intros _].
    + intros st; reflexivity.
    + apply keeps_model_fields_loop3D.
Qed.

(** X10: whatever its outcome, [fields(m)] of either formulation leaves the
    simulation with the model [m], and [fields()] called without a model
    leaves the model the simulation had. *)
Theorem fields_model_afterwards V cfg m st :
  model (snd (fields V cfg m st))
  = match m with Some m' => Some m' | None => model st end.
Proof.
  destruct m as [m'|]; [apply fields_sets_model|].
  destruct V; simpl.
  - unfold Sim1D.fields.
    change (bind (ret tt) ?k st) with (k tt st). cbv beta.
    apply (keeps_model_fields_loop1D cfg _ ∅ st).
  - unfold Sim3D.fields.
    change (bind (ret tt) ?k st) with (k tt st). cbv beta.
    apply (keeps_model_fields_tail3D cfg st).
Qed.

(** *** The keys of the fields object *)

Lemma fields_loop3D_keys cfg :
  forall freqs F nf st Fout st',
    Sim3D.fields_loop cfg F nf freqs st = (Ok Fout, st') ->
    forall k, is_Some (Fout !! k) <->
      is_Some (F !! k)
      \/ exists freq Src name,
           In freq freqs /\ first_source cfg freq = Ok Src
           /\ In name (solution_names Simulation3DPrimarySecondary)
           /\ k = (src_id Src, name).
Proof.
  induction freqs as [|freq rest IH]; intros F nf st Fout st' E k; simpl in E.
  - inversion E; subst. split; [auto|].
    intros [H|(fr & Src & name & [] & _)]. exact H.
  - apply bind_Ok_inv in E as (A & s1 & _ & E).
    apply bind_Ok_inv in E as (rhs & s2 & _ & E).
    apply bind_Ok_inv in E as (Anew & s3 & _ & E).
    apply bind_Ok_inv in E as ([] & s4 & _ & E).
    apply bind_Ok_inv in E as (e_s & s5 & _ & E).
    apply bind_Ok_inv in E as (Src & s6 & ESrc & E).
    apply lift_Ok_inv in ESrc as [ESrc _].
    apply bind_Ok_inv in E as (px & s7 & _ & E).
    apply bind_Ok_inv in E as (py & s8 & _ & E).
    rewrite (IH _ _ _ _ _ E k). rewrite !lookup_insert_is_Some'. split.
    + intros [[Hk|[Hk|Hk]]|(fr & S' & name & Hin & HS & Hn & Hk)].
      * right. exists freq, Src, "e_pySolution"%string.
        repeat split; [left; reflexivity | exact ESrc | simpl; auto | auto].
      * right. exists freq, Src, "e_pxSolution"%string.
        repeat split; [left; reflexivity | exact ESrc | simpl; auto | auto].
      * left. exact Hk.
      * right. exists fr, S', name. repeat split; [right; exact Hin | | | ];
          assumption.
    + intros [Hk|(fr & S' & name & [<-|Hin] & HS & Hn & Hk)].
      * left. right. right. exact Hk.
      * left. assert (S' = Src) by congruence. subst S'.
        destruct Hn as [<-|[<-|[]]]; [right; left | left]; symmetry; exact Hk.
      * right. exists fr, S', name. repeat split; assumption.
Qed.

Lemma fields_loop1D_keys cfg :
  forall freqs F st Fout st',
    Sim1D.fields_loop cfg F freqs st = (Ok Fout, st') ->
    forall k, is_Some (Fout !! k) <->
      is_Some (F !! k)
      \/ exists freq Src name,
           In freq freqs /\ first_source cfg freq = Ok Src
           /\ In name (solution_names Simulation1DPrimarySecondary)
           /\ k = (src_id Src, name).
Proof.
  induction freqs as [|freq rest IH]; intros F st Fout st' E k; simpl in E.
  - inversion E; subst. split; [auto|].
    intros [H|(fr & Src & name & [] & _)]. exact H.
  - apply bind_Ok_inv in E as (A & s1 & _ & E).
    apply bind_Ok_inv in E as (rhs & s2 & _ & E).
    apply bind_Ok_inv in E as (Anew & s3 & _ & E).
    apply bind_Ok_inv in E as (e_s & s5 & _ & E).
    apply bind_Ok_inv in E as (Src & s6 & ESrc & E).
    apply lift_Ok_inv in ESrc as [ESrc _].
    rewrite (IH _ _ _ _ E k). rewrite !lookup_insert_is_Some'. split.
    + intros [[Hk|Hk]|(fr & S' & name & Hin & HS & Hn & Hk)].
      * right. exists freq, Src, "e_1dSolution"%string.
        repeat split; [left; reflexivity | exact ESrc | simpl; auto | auto].
      * left. exact Hk.
      * right. exists fr, S', name. repeat split; [right; exact Hin | | | ];
          assumption.
    + intros [Hk|(fr & S' & name & [<-|Hin] & HS & Hn & Hk)].
      * left. right. exact Hk.
      * left. assert (S' = Src) by congruence. subst S'.
        destruct Hn as [<-|[]]. left. symmetry; exact Hk.
      * right. exists fr, S', name. repeat split; assumption.
Qed.

(** X11: the fields object returned by a successful [fields] holds
    solutions for exactly the first source of each frequency, under each of
    the solution names of the formulation (both polarizations in 3-D), and
    for no other source: the further sources of a frequency get no fields. *)
Theorem fields_stores_first_sources_only V cfg m st F st' :
  fields V cfg m st = (Ok F, st') ->
  forall k, is_Some (F !! k) <->
    exists freq Src name,
      In freq (frequencies (survey cfg)) /\ first_source cfg freq = Ok Src
      /\ In name (solution_names V) /\ k = (src_id Src, name).
Proof.
  intros E k. destruct V; simpl in E.
  - unfold Sim1D.fields in E. apply bind_Ok_inv in E as ([] & s1 & _ & E).
    rewrite (fields_loop1D_keys cfg _ _ _ _ _ E k). split.
    + intros [H|H]; [rewrite lookup_empty in H; destruct H; discriminate | exact H].
    + intros H. right. exact H.
  - unfold Sim3D.fields in E. apply bind_Ok_inv in E as ([] & s1 & _ & E).
    apply bind_Ok_inv in E as ([] & s2 & _ & E).
    apply bind_Ok_inv in E as ([] & s3 & _ & E).
    rewrite (fields_loop3D_keys cfg _ _ _ _ _ _ E k). split.
    + intros [H|H]; [rewrite lookup_empty in H; destruct H; discriminate | exact H].
    + intros H. right. exact H.
Qed.

Lemma fields_stores_first_sources_only_witness :
  is_Some (Cases.F2 !! (0, "e_pySolution"%string)) <->
  exists freq Src name,
    In freq (frequencies (survey Cases.cfg2))
    /\ first_source Cases.cfg2 freq = Ok Src
    /\ In name (solution_names Scenario.V3) /\ (0, "e_pySolution"%string) = (src_id Src, name).
Proof.
  refine (fields_stores_first_sources_only Scenario.V3 Cases.cfg2
            (Some Cases.m1) Sample.st0 Cases.F2 Cases.st2 _ _).
  vm_compute. reflexivity.
Defined.

(** *** How many factorizations a forward pass can request *)

Lemma store_Ainv_events i F st : events (snd (store_Ainv i F st)) = events st.
Proof.
  unfold store_Ainv. destruct (Ainv st) as [l|]; [|reflexivity].
  destruct (decide (i < length l)); reflexivity.
Qed.

Lemma fields_loop3D_bound cfg :
  forall freqs F nf st,
    factorizations (snd (Sim3D.fields_loop cfg F nf freqs st))
    <= factorizations st + length freqs.
Proof.
  induction freqs as [|freq rest IH]; intros F nf st; simpl; [lia|].
  set (P := fun s => factorizations s <= factorizations st + S (length rest)).
  match goal with |- factorizations (snd ?c) <= _ => change (P (snd c)) end.
  assert (P0 : P st) by (unfold P; lia).
  apply readonly_post; [apply frame_getA3D; congruence | exact P0 | intros A _].
  apply readonly_post; [apply frame_getRHS3D; congruence | exact P0 | intros rhs _].
  assert (P1 : P (add_event (Factorize A) st)) by (unfold P, factorizations; simpl; lia).
  apply bind_post; rewrite call_Solver_run; intros x s E; inversion E; subst;
    [exact P1|].
  assert (Hst : forall s, events s = events (add_event (Factorize A) st) -> P s).
  { intros s Hs. unfold P, factorizations. rewrite Hs. simpl. lia. }
  apply bind_post; intros y s2 E2;
    pose proof (store_Ainv_events nf x (add_event (Factorize A) st)) as Hev;
    rewrite E2 in Hev; simpl in Hev; [apply Hst; exact Hev|].
  assert (P2 : P s2) by (apply Hst; exact Hev).
  apply readonly_post; [apply frame_Ainv_mul; congruence | exact P2 | intros e_s _].
  apply readonly_post; [apply readonly_lift | exact P2 | intros Src _].
  apply readonly_post; [apply readonly_lift | exact P2 | intros px _].
  apply readonly_post; [apply readonly_lift | exact P2 | intros py _].
  unfold P. etransitivity; [apply IH|].
  unfold factorizations. rewrite Hev. simpl. lia.
Qed.

Lemma fields_loop1D_bound cfg :
  forall freqs F st,
    factorizations (snd (Sim1D.fields_loop cfg F freqs st))
    <= factorizations st + length freqs.
Proof.
  induction freqs as [|freq rest IH]; intros F st; simpl; [lia|].
  set (P := fun s => factorizations s <= factorizations st + S (length rest)).
  match goal with |- factorizations (snd ?c) <= _ => change (P (snd c)) end.
  assert (P0 : P st) by (unfold P; lia).
  apply readonly_post; [apply frame_getA1D; congruence | exact P0 | intros A _].
  apply readonly_post; [apply frame_getRHS1D; congruence | exact P0 | intros rhs _].
  assert (P1 : P (add_event (Factorize A) st)) by (unfold P, factorizations; simpl; lia).
  apply bind_post; rewrite call_Solver_run; intros x s E; inversion E; subst;
    [exact P1|].
  apply readonly_post; [apply readonly_lift | exact P1 | intros e_s _].
  apply readonly_post; [apply readonly_lift | exact P1 | intros Src _].
  unfold P. etransitivity; [apply IH|].
  unfold factorizations. simpl. lia.
Qed.

(** X12: a call of [fields], of either formulation and whatever its
    outcome, requests at most one factorization per frequency of the
    survey. *)
Theorem fields_factorizes_each_frequency_at_most_once V cfg m st :
  factorizations (snd (fields V cfg m st))
  <= factorizations st + num_frequencies (survey cfg).
Proof.
  set (st1 := snd ((match m with Some m' => set_model m' | None => ret tt end) st)).
  assert (E1 : (match m with Some m' => set_model m' | None => ret tt end) st
               = (Ok tt, st1)) by (subst st1; destruct m; reflexivity).
  assert (H1 : factorizations st1 = factorizations st)
    by (subst st1; destruct m; reflexivity).
  destruct V; simpl.
  - unfold Sim1D.fields. unfold bind at 1. rewrite E1.
    rewrite <- H1. apply fields_loop1D_bound.
  - unfold Sim3D.fields. unfold bind at 1. rewrite E1.
    unfold bind at 1. unfold try_except_pass.
    pose proof (frame_release_held cfg st1) as (_ & _ & H2).
    destruct (Sim3D.release_held cfg st1) as [r s2]. simpl in H2.
    unfold bind at 1. unfold set_Ainv at 1.
    etransitivity; [apply fields_loop3D_bound|].
    unfold factorizations in *. simpl. unfold num_frequencies. lia.
Qed.
